(** * Wordle game engine: scoring, adversarial selection and the session
      state machine of [GameService] (backend/src/services/gameService.ts).

    Words are [string]s over 7-bit ASCII; a character is an [ascii].  The
    session store is a finite map from game ids to [ServerGameState]
    records; operations that mutate a stored game return the new store. *)

From Stdlib Require Import ZArith Ascii String.
From stdpp Require Import base decidable option list gmap strings.

Local Open Scope string_scope.

(** ** Data model (types/game.ts) *)

Inductive LetterState := Hit | Present | Miss | Empty.

#[global] Instance LetterState_eq_dec : EqDecision LetterState.
Proof. solve_decision. Defined.

Record Letter := mkLetter { char : ascii; state : LetterState }.

#[global] Instance Letter_eq_dec : EqDecision Letter.
Proof. solve_decision. Defined.

Abbreviation Guess := (list Letter).

(** ** JavaScript string and array primitives used by the service *)

Module Js.

(** [c.toUpperCase()] on one ASCII character. *)
Definition upper_char (c : ascii) : ascii :=
  let n := nat_of_ascii c in
  if (97 <=? n)%nat && (n <=? 122)%nat then ascii_of_nat (n - 32) else c.

(** [s.toUpperCase()] *)
Fixpoint toUpperCase (s : string) : string :=
  match s with
  | EmptyString => EmptyString
  | String c s' => String (upper_char c) (toUpperCase s')
  end.

(** [s.split("")]: the characters of [s] in order. *)
Definition split (s : string) : list ascii := list_ascii_of_string s.

(** White space removed by [trim] (ASCII part). *)
Definition is_space (c : ascii) : bool :=
  let n := nat_of_ascii c in
  ((9 <=? n)%nat && (n <=? 13)%nat) || (n =? 32)%nat.

Fixpoint trimStart (s : string) : string :=
  match s with
  | EmptyString => EmptyString
  | String c s' => if is_space c then trimStart s' else s
  end.

(** Drops trailing white space: a space character is kept only when a
    character that is not white space follows it. *)
Fixpoint trimEnd (s : string) : string :=
  match s with
  | EmptyString => EmptyString
  | String c s' =>
      match trimEnd s' with
      | EmptyString => if is_space c then EmptyString else String c EmptyString
      | t => String c t
      end
  end.

(** [s.trim()] *)
Definition trim (s : string) : string := trimEnd (trimStart s).

(** [arr.forEach((x, index) => ...)] over an array that the callback does
    not change: the callback threads the state [S] it mutates. *)
Fixpoint forEach_from {A S : Type} (f : A -> nat -> S -> S)
    (arr : list A) (index : nat) (s : S) : S :=
  match arr with
  | [] => s
  | x :: arr' => forEach_from f arr' (Datatypes.S index) (f x index s)
  end.

Definition forEach {A S : Type} (f : A -> nat -> S -> S) (arr : list A) (s : S) : S :=
  forEach_from f arr 0 s.

(** [arr[index] = x]: replaces the element inside the array and appends
    when [index] is the array's length.  (An assignment further out would
    leave holes; the service only writes at indexes [0 .. length].) *)
Definition array_set {A : Type} (index : nat) (x : A) (arr : list A) : list A :=
  if decide (index < length arr) then <[index := x]> arr else arr ++ [x].

(** [Math.min(...xs)]; [None] stands for [Infinity], the value on an
    empty argument list. *)
Definition Math_min (xs : list nat) : option nat :=
  match xs with
  | [] => None
  | x :: xs' => Some (foldl Nat.min x xs')
  end.

End Js.

(** ** Scorer *)

(** The object [answerLetterCount]: letter -> remaining count. *)
Abbreviation LetterCount := (gmap ascii Z).

(** [answerLetterCount[letter] = (answerLetterCount[letter] || 0) + 1] *)
Definition count_letter (cnt : LetterCount) (letter : ascii) : LetterCount :=
  <[letter := (default 0 (cnt !! letter) + 1)%Z]> cnt.

(** [answerLetterCount[letter]--] on a letter that has an entry (the
    service decrements only such letters). *)
Definition decrement (letter : ascii) (cnt : LetterCount) : LetterCount :=
  alter Z.pred letter cnt.

(** [answerLetterCount[letter] > 0]; a missing entry compares false. *)
Definition positive_count (cnt : LetterCount) (letter : ascii) : bool :=
  match cnt !! letter with
  | Some n => (0 <? n)%Z
  | None => false
  end.

(** Callback of the first pass of [scoreGuess]. *)
Definition pass1_step (answerArray : list ascii) (letter : ascii) (index : nat)
    (st : Guess * LetterCount) : Guess * LetterCount :=
  let '(result, answerLetterCount) := st in
  if decide (answerArray !! index = Some letter)
  then (Js.array_set index (mkLetter letter Hit) result,
        decrement letter answerLetterCount)
  else (Js.array_set index (mkLetter letter Empty) result, answerLetterCount).

(** Callback of the second pass; [result.forEach] reads [result[index]]
    from the array as it is when the index is visited. *)
Definition pass2_step (st : Guess * LetterCount) (index : nat) : Guess * LetterCount :=
  let '(result, answerLetterCount) := st in
  match result !! index with
  | None => st
  | Some letterObj =>
      match state letterObj with
      | Empty =>
          let letter := char letterObj in
          if positive_count answerLetterCount letter
          then (Js.array_set index (mkLetter letter Present) result,
                decrement letter answerLetterCount)
          else (Js.array_set index (mkLetter letter Miss) result, answerLetterCount)
      | _ => st
      end
  end.

Definition scoreGuess (guess answer : string) : Guess :=
  let guessArray := Js.split (Js.toUpperCase guess) in
  let answerArray := Js.split (Js.toUpperCase answer) in
  let answerLetterCount := foldl count_letter ∅ answerArray in
  let st1 := Js.forEach (pass1_step answerArray) guessArray ([], answerLetterCount) in
  let st2 := foldl pass2_step st1 (seq 0 (length st1.1)) in
  st2.1.

(** [scorePattern]: the numeric helpfulness of a pattern. *)
Definition scorePattern (pattern : Guess) : nat :=
  foldl (fun score letter =>
           match state letter with
           | Hit => score + 6
           | Present => score + 1
           | _ => score
           end) 0 pattern.

(** ** Adversarial selector *)

(** Entries of the local array [wordScores]. *)
Record WordScore := mkWordScore { word : string; pattern : Guess; score : nat }.

(** The object returned by [absurdleScoreGuess]; its key [pattern] is the
    local [finalPattern]. *)
Record AbsurdleResult := mkAbsurdleResult {
  finalPattern : Guess;
  remainingWords : list string;
  selectedAnswer : option string
}.

(** Exceptions thrown by the service, one constructor per message. *)
Inductive Error :=
  | GameNotFound                (* "Game not found" *)
  | NotPlaying                  (* "Game is not in playing state" *)
  | InvalidGuessFormat          (* "Invalid guess format" *)
  | WrongLength (wordLength : Z)       (* "Guess must be N letters long" *)
  | NotLetters                  (* "Guess must contain only letters" *)
  | NotValidWord                (* "Not a valid word" *)
  | NotYourTurn (name : string) (* "It's NAME's turn" *)
  | NoCandidateWords            (* "Invalid game state: no candidate words" *)
  | NoValidPatterns             (* "No valid patterns found" *)
  | TypeError.                  (* property read on [undefined] *)

(** [candidateWords.forEach(candidate => wordScores.push(...))] *)
Definition wordScores_of (guessUpper : string) (candidateWords : list string) : list WordScore :=
  foldl (fun wordScores candidate =>
           let pattern := scoreGuess guessUpper candidate in
           let score := scorePattern pattern in
           (wordScores ++ [mkWordScore candidate pattern score])%list)
        [] candidateWords.

Definition absurdleScoreGuess (guess : string) (candidateWords : list string)
    : Error + AbsurdleResult :=
  let guessUpper := Js.toUpperCase guess in
  let wordScores := wordScores_of guessUpper candidateWords in
  let minScore := Js.Math_min (map score wordScores) in
  let lowestScoringWords :=
    filter (fun ws => Some (score ws) = minScore) wordScores in
  match lowestScoringWords with
  | [] => inl NoValidPatterns
  | first :: _ =>
      let '(finalPattern, selectedAnswer) :=
        if decide (minScore = Some 0) then
          if decide (length lowestScoringWords = 1)
          then (pattern first, Some (word first))
          else (map (fun char => mkLetter char Empty) (Js.split guessUpper), None)
        else (pattern first, Some (word first)) in
      inr (mkAbsurdleResult finalPattern (map word lowestScoringWords) selectedAnswer)
  end.

(** ** Sessions *)

Inductive GameMode := single | multiplayer | absurdle.
Inductive GameStatus := playing | won | lost.

#[global] Instance GameMode_eq_dec : EqDecision GameMode.
Proof. solve_decision. Defined.
#[global] Instance GameStatus_eq_dec : EqDecision GameStatus.
Proof. solve_decision. Defined.

Record Player := mkPlayer {
  player_id : string;
  player_name : string;
  guesses : list Guess;
  isWinner : bool
}.

(** [ServerGameState]; the optional fields [winnerId] and [candidateWords]
    are [None] when undefined, and [answer] is the empty string while an
    absurdle game has not selected its answer. *)
Record ServerGameState := mkGame {
  game_id : string;
  answer : string;
  mode : GameMode;
  players : list Player;
  currentPlayerIndex : nat;
  currentRow : Z;
  gameStatus : GameStatus;
  winnerId : option string;
  maxRounds : Z;
  wordLength : Z;
  candidateWords : option (list string)
}.

Record ClientGameState := mkClient {
  c_id : string;
  c_mode : GameMode;
  c_players : list Player;
  c_currentPlayerIndex : nat;
  c_currentRow : Z;
  c_gameStatus : GameStatus;
  c_winnerId : option string;
  c_maxRounds : Z;
  c_wordLength : Z;
  c_currentGuess : string
}.

(** Field assignments [game.f = v]. *)
Definition set_answer (v : string) (g : ServerGameState) : ServerGameState :=
  mkGame (game_id g) v (mode g) (players g) (currentPlayerIndex g) (currentRow g)
         (gameStatus g) (winnerId g) (maxRounds g) (wordLength g) (candidateWords g).
Definition set_players (v : list Player) (g : ServerGameState) : ServerGameState :=
  mkGame (game_id g) (answer g) (mode g) v (currentPlayerIndex g) (currentRow g)
         (gameStatus g) (winnerId g) (maxRounds g) (wordLength g) (candidateWords g).
Definition set_currentPlayerIndex (v : nat) (g : ServerGameState) : ServerGameState :=
  mkGame (game_id g) (answer g) (mode g) (players g) v (currentRow g)
         (gameStatus g) (winnerId g) (maxRounds g) (wordLength g) (candidateWords g).
Definition set_currentRow (v : Z) (g : ServerGameState) : ServerGameState :=
  mkGame (game_id g) (answer g) (mode g) (players g) (currentPlayerIndex g) v
         (gameStatus g) (winnerId g) (maxRounds g) (wordLength g) (candidateWords g).
Definition set_gameStatus (v : GameStatus) (g : ServerGameState) : ServerGameState :=
  mkGame (game_id g) (answer g) (mode g) (players g) (currentPlayerIndex g) (currentRow g)
         v (winnerId g) (maxRounds g) (wordLength g) (candidateWords g).
Definition set_winnerId (v : option string) (g : ServerGameState) : ServerGameState :=
  mkGame (game_id g) (answer g) (mode g) (players g) (currentPlayerIndex g) (currentRow g)
         (gameStatus g) v (maxRounds g) (wordLength g) (candidateWords g).
Definition set_candidateWords (v : option (list string)) (g : ServerGameState) : ServerGameState :=
  mkGame (game_id g) (answer g) (mode g) (players g) (currentPlayerIndex g) (currentRow g)
         (gameStatus g) (winnerId g) (maxRounds g) (wordLength g) v.

(** [player.guesses.push(scoredGuess)] and [player.isWinner = true]. *)
Definition push_guess (scoredGuess : Guess) (p : Player) : Player :=
  mkPlayer (player_id p) (player_name p) (guesses p ++ [scoredGuess])%list (isWinner p).
Definition set_isWinner (v : bool) (p : Player) : Player :=
  mkPlayer (player_id p) (player_name p) (guesses p) v.

Definition toClientGameState (serverState : ServerGameState) (currentGuess : string)
    : ClientGameState :=
  mkClient (game_id serverState) (mode serverState) (players serverState)
           (currentPlayerIndex serverState) (currentRow serverState)
           (gameStatus serverState) (winnerId serverState)
           (maxRounds serverState) (wordLength serverState) currentGuess.

(** JavaScript truthiness of an optional string: defined and not empty. *)
Definition truthy (s : option string) : bool :=
  match s with
  | Some s' => if decide (s' = "") then false else true
  | None => false
  end.

(** [/^[A-Z]+$/.test(s)] *)
Definition is_upper_letter (c : ascii) : bool :=
  let n := nat_of_ascii c in (65 <=? n)%nat && (n <=? 90)%nat.
Definition only_letters (s : string) : bool :=
  match Js.split s with
  | [] => false
  | cs => forallb is_upper_letter cs
  end.

(** ** The service: session store and guess submission *)

(** The private map [games]. *)
Abbreviation Games := (gmap string ServerGameState).

Section Service.

(** The dictionary [WORDS] (data/words.ts) loaded into [wordList]. *)
Variable wordList : list string.

(** [this.wordList.includes(word.toUpperCase())] *)
Definition isValidWord (word : string) : bool :=
  bool_decide (Js.toUpperCase word ∈ wordList).

(** Multiplayer turn validation: [Some e] when it throws [e]. *)
Definition turn_check (game : ServerGameState) (playerId : option string) : option Error :=
  if decide (mode game = multiplayer) then
    if truthy playerId then
      match players game !! currentPlayerIndex game with
      | None => Some TypeError
      | Some currentPlayer =>
          if decide (playerId ≠ Some (player_id currentPlayer))
          then Some (NotYourTurn (player_name currentPlayer))
          else None
      end
    else None
  else None.

(** Scoring of a validated guess: the scored guess and the game object
    after the assignments to [candidateWords] and [answer]. *)
Definition score_step (normalizedGuess : string) (game : ServerGameState)
    : Error + (Guess * ServerGameState) :=
  if decide (mode game = absurdle ∧ answer game = "") then
    match candidateWords game with
    | None | Some [] => inl NoCandidateWords
    | Some candidates =>
        match absurdleScoreGuess normalizedGuess candidates with
        | inl e => inl e
        | inr absurdleResult =>
            let game1 := set_candidateWords (Some (remainingWords absurdleResult)) game in
            match selectedAnswer absurdleResult with
            | Some selected =>
                if truthy (Some selected) then
                  let game2 := set_answer selected game1 in
                  inr (scoreGuess normalizedGuess (answer game2), game2)
                else inr (finalPattern absurdleResult, game1)
            | None => inr (finalPattern absurdleResult, game1)
            end
        end
    end
  else inr (scoreGuess normalizedGuess (answer game), game).

(** The win condition [isWin]. *)
Definition is_win (normalizedGuess : string) (game : ServerGameState) : bool :=
  if decide (mode game = absurdle)
  then bool_decide (answer game ≠ "") && bool_decide (normalizedGuess = answer game)
  else bool_decide (normalizedGuess = answer game).

(** [game.players.filter(player => player.isWinner)] *)
Definition winners (game : ServerGameState) : list Player :=
  filter (fun player => isWinner player = true) (players game).

(** Turn and round advancement with the win and loss checks. *)
Definition advance (isWin : bool) (currentPlayer : Player) (game : ServerGameState)
    : ServerGameState :=
  if decide (mode game = multiplayer) then
    let game1 :=
      set_currentPlayerIndex
        ((currentPlayerIndex game + 1) mod length (players game)) game in
    let game2 :=
      if decide (currentPlayerIndex game1 = 0)
      then set_currentRow (currentRow game1 + 1)%Z game1 else game1 in
    if decide (currentPlayerIndex game2 = 0 ∨ gameStatus game2 ≠ playing) then
      match winners game2 with
      | first :: _ => set_winnerId (Some (player_id first)) (set_gameStatus won game2)
      | [] =>
          if decide (currentRow game2 >= maxRounds game2)%Z
          then set_gameStatus lost game2 else game2
      end
    else game2
  else
    if isWin then set_winnerId (Some (player_id currentPlayer)) (set_gameStatus won game)
    else
      let game1 := set_currentRow (currentRow game + 1)%Z game in
      if decide (currentRow game1 >= maxRounds game1)%Z
      then set_gameStatus lost game1 else game1.

(** The state update of [submitGuess] once the guess is scored: the guess
    is pushed on the current player's list, a winning player is flagged, and
    the turn advances.  [currentPlayer] is [game.players[game.currentPlayerIndex]],
    an object of the array, so its mutations show in [game.players]. *)
Definition record_guess (normalizedGuess : string) (scoredGuess : Guess)
    (currentPlayer : Player) (game : ServerGameState) : ServerGameState :=
  let isWin := is_win normalizedGuess game in
  let currentPlayer1 := push_guess scoredGuess currentPlayer in
  let currentPlayer2 :=
    if isWin then set_isWinner true currentPlayer1 else currentPlayer1 in
  let game1 :=
    set_players (<[currentPlayerIndex game := currentPlayer2]> (players game)) game in
  advance isWin currentPlayer2 game1.

(** [submitGuess]: the value returned or the exception thrown, and the
    store afterwards.  The game object is mutated in place, so an exception
    thrown after an assignment leaves that assignment in the store. *)
Definition submitGuess (games : Games) (gameId guess : string) (playerId : option string)
    : (Error + (ClientGameState * Guess)) * Games :=
  match games !! gameId with
  | None => (inl GameNotFound, games)
  | Some game =>
      if decide (gameStatus game ≠ playing) then (inl NotPlaying, games)
      else if decide (guess = "") then (inl InvalidGuessFormat, games)
      else
        let normalizedGuess := Js.toUpperCase (Js.trim guess) in
        if decide (Z.of_nat (String.length normalizedGuess) ≠ wordLength game)
        then (inl (WrongLength (wordLength game)), games)
        else if negb (only_letters normalizedGuess) then (inl NotLetters, games)
        else if negb (isValidWord normalizedGuess) then (inl NotValidWord, games)
        else
          match turn_check game playerId with
          | Some e => (inl e, games)
          | None =>
              match score_step normalizedGuess game with
              | inl e => (inl e, games)
              | inr (scoredGuess, game1) =>
                  match players game1 !! currentPlayerIndex game1 with
                  | None => (inl TypeError, <[gameId := game1]> games)
                  | Some currentPlayer =>
                      let game2 :=
                        record_guess normalizedGuess scoredGuess currentPlayer game1 in
                      (inr (toClientGameState game2 "", scoredGuess),
                       <[gameId := game2]> games)
                  end
              end
          end
  end.

(** [getGame] *)
Definition getGame (games : Games) (gameId : string) : option ClientGameState :=
  match games !! gameId with
  | Some game => Some (toClientGameState game "")
  | None => None
  end.

(** [getGameAnswer]; [None] is [null]. *)
Definition getGameAnswer (games : Games) (gameId : string) : option string :=
  match games !! gameId with
  | None => None
  | Some game =>
      if decide (gameStatus game = playing) then None
      else if decide (mode game = absurdle) then
        if decide (answer game ≠ "") then Some (answer game)
        else
          match candidateWords game with
          | Some candidates =>
              if decide (length candidates = 1) then candidates !! 0 else None
          | None => None
          end
      else Some (answer game)
  end.

End Service.

(** ** Vocabulary of the properties *)

Definition verdicts (g : Guess) : list LetterState := map state g.

(** Number of positions of a scored guess that carry verdict [s]. *)
Definition count_state (s : LetterState) (g : Guess) : nat :=
  length (filter (fun l => state l = s) g).

(** Number of positions marked [s] whose character is [c]. *)
Definition marked (s : LetterState) (c : ascii) (g : Guess) : nat :=
  length (filter (fun l => char l = c ∧ state l = s) g).

(** Number of occurrences of the letter [c] among the characters [w]. *)
Definition occurrences (c : ascii) (w : list ascii) : nat :=
  length (filter (fun x => x = c) w).

(** The letters the scorer compares: the characters of the word folded to
    upper case. *)
Definition letters (w : string) : list ascii := Js.split (Js.toUpperCase w).

(** Reading of a counter, [0] for a letter without entry. *)
Definition remaining (cnt : LetterCount) (c : ascii) : Z := default 0%Z (cnt !! c).

(** Helpfulness of the feedback the guess would get against a candidate. *)
Definition helpfulness (guess candidate : string) : nat :=
  scorePattern (scoreGuess (Js.toUpperCase guess) candidate).

(** A candidate attains the minimum helpfulness over the pool. *)
Definition attains_min (guess : string) (pool : list string) (w : string) : Prop :=
  Forall (fun w' => (helpfulness guess w ≤ helpfulness guess w')%nat) pool.

#[global] Instance attains_min_dec guess pool w : Decision (attains_min guess pool w).
Proof. unfold attains_min. apply _. Defined.

(** The candidates attaining the minimum, in pool order. *)
Definition minimalSet (guess : string) (pool : list string) : list string :=
  filter (attains_min guess pool) pool.

(** The failures of a guess submission that concern the request: unknown
    game, game not in play, malformed or invalid guess, wrong player. *)
Definition request_failure (e : Error) : Prop :=
  match e with
  | GameNotFound | NotPlaying | InvalidGuessFormat | WrongLength _
  | NotLetters | NotValidWord | NotYourTurn _ => True
  | NoCandidateWords | NoValidPatterns | TypeError => False
  end.

(** The winner ids a session records: its optional field [winnerId]. *)
Definition winnerIds (game : ServerGameState) : list string :=
  match winnerId game with
  | Some w => [w]
  | None => []
  end.

(** [guess.trim().toUpperCase()] *)
Definition normalize (guess : string) : string := Js.toUpperCase (Js.trim guess).

(** Consecutive submissions to one game, each a guess with its optional
    player id; [None] as soon as one of them throws. *)
Fixpoint submit_all (wordList : list string) (games : Games) (gameId : string)
    (inputs : list (string * option string)) : option Games :=
  match inputs with
  | [] => Some games
  | (guess, playerId) :: inputs' =>
      match submitGuess wordList games gameId guess playerId with
      | (inr _, games') => submit_all wordList games' gameId inputs'
      | (inl _, _) => None
      end
  end.

(** ** Sample sessions *)

Module Sample.

Definition words : list string := ["CRANE"; "SLATE"; "APPLE"].

Definition alice : Player := mkPlayer "p1" "Alice" [] false.
Definition bob : Player := mkPlayer "p2" "Bob" [] false.
Definition solo : Player := mkPlayer "p3" "Player" [] false.

(** A two-player game at the start of its first round. *)
Definition duel : ServerGameState :=
  mkGame "g1" "CRANE" multiplayer [alice; bob] 0 0 playing None 6 5 None.

(** An absurdle game before its first guess. *)
Definition hunt : ServerGameState :=
  mkGame "g2" "" absurdle [solo] 0 0 playing None 6 5 (Some words).

(** An absurdle game lost with one candidate left and no answer selected. *)
Definition cornered : ServerGameState :=
  mkGame "g3" "" absurdle [solo] 0 6 lost None 6 5 (Some ["SLATE"]).

(** A single-player game that was won. *)
Definition solved : ServerGameState :=
  mkGame "g4" "APPLE" single [set_isWinner true solo] 0 2 won (Some "p3") 6 5 None.

Definition store : Games :=
  <["g1" := duel]> (<["g2" := hunt]> (<["g3" := cornered]> (<["g4" := solved]> ∅))).

End Sample.

(** ** The two passes as structural recursions *)

Fixpoint pass1_rec (guessRest answerRest : list ascii) (cnt : LetterCount)
    : Guess * LetterCount :=
  match guessRest with
  | [] => ([], cnt)
  | letter :: guessRest' =>
      if decide (head answerRest = Some letter) then
        let r := pass1_rec guessRest' (tail answerRest) (decrement letter cnt) in
        (mkLetter letter Hit :: r.1, r.2)
      else
        let r := pass1_rec guessRest' (tail answerRest) cnt in
        (mkLetter letter Empty :: r.1, r.2)
  end.

Fixpoint pass2_rec (result : Guess) (cnt : LetterCount) : Guess * LetterCount :=
  match result with
  | [] => ([], cnt)
  | letterObj :: rest =>
      match state letterObj with
      | Empty =>
          if positive_count cnt (char letterObj) then
            let r := pass2_rec rest (decrement (char letterObj) cnt) in
            (mkLetter (char letterObj) Present :: r.1, r.2)
          else
            let r := pass2_rec rest cnt in
            (mkLetter (char letterObj) Miss :: r.1, r.2)
      | _ => let r := pass2_rec rest cnt in (letterObj :: r.1, r.2)
      end
  end.

(** ** Game creation (service) *)

Record GameConfig := mkConfig {
  cfg_maxRounds : Z;
  cfg_wordLength : Z;
  cfg_mode : GameMode;
  cfg_playerNames : option (list string)
}.

(** Exceptions of [createGame]. *)
Inductive CreateError :=
  | NamesRequired      (* "Player names are required for multiplayer mode" *)
  | CreateTypeError.   (* [toUpperCase] read on [undefined]: empty dictionary *)

(** The default parameter of [createGame]. *)
Definition defaultConfig : GameConfig := mkConfig 6 5 single None.

Section Creation.

Variable wordList : list string.

(** [getRandomWord]; [randomIndex] is the value of
    [Math.floor(Math.random() * this.wordList.length)], and [None] is the
    [TypeError] of an index without word. *)
Definition getRandomWord (randomIndex : nat) : option string :=
  Js.toUpperCase <$> wordList !! randomIndex.

(** [name.trim() || "Player"] *)
Definition player_name_of (name : string) : string :=
  if decide (Js.trim name = "") then "Player" else Js.trim name.

(** The players of a new game; [uuid k] is the result of the [k]-th call of
    [uuidv4] made by [createGame] (call [0] gives the game id). *)
Definition new_players (config : GameConfig) (uuid : nat -> string)
    : option (list Player) :=
  match cfg_mode config with
  | single | absurdle => Some [mkPlayer (uuid 1) "Player" [] false]
  | multiplayer =>
      match cfg_playerNames config with
      | Some playerNames =>
          Some (imap (fun k name => mkPlayer (uuid (S k)) (player_name_of name) [] false)
                     playerNames)
      | None => None
      end
  end.

(** [createGame]: the value returned or the exception thrown, and the store
    afterwards. *)
Definition createGame (games : Games) (config : option GameConfig)
    (uuid : nat -> string) (randomIndex : nat)
    : (CreateError + (string * ClientGameState)) * Games :=
  let config := default defaultConfig config in
  let gameId := uuid 0 in
  match (if decide (cfg_mode config = absurdle) then Some ""
         else getRandomWord randomIndex) with
  | None => (inl CreateTypeError, games)
  | Some answer =>
      match new_players config uuid with
      | None => (inl NamesRequired, games)
      | Some players =>
          let serverState :=
            mkGame gameId answer (cfg_mode config) players 0 0 playing None
                   (cfg_maxRounds config) (cfg_wordLength config)
                   (if decide (cfg_mode config = absurdle) then Some wordList else None) in
          (inr (gameId, toClientGameState serverState ""),
           <[gameId := serverState]> games)
      end
  end.

End Creation.

(** ** The controller: HTTP handlers over the service *)

Inductive Body :=
  | CreatedBody (gameId : string) (gameState : ClientGameState)
  | GuessBody (gameState : ClientGameState) (scoredGuess : Guess)
  | StateBody (gameState : ClientGameState)
  | AnswerBody (answer : string)
  | ErrorBody (error : string).

(** [res.status(code).json(body)] *)
Record Response := mkResponse { status : nat; body : Body }.

(** The body of [POST /api/games/guess]; a field is [None] when undefined. *)
Record GuessRequest := mkGuessRequest {
  req_gameId : option string;
  req_guess : option string;
  req_playerId : option string
}.

Module Controller.

(** [s.includes(sub)] *)
Fixpoint includes (s sub : string) : bool :=
  String.prefix sub s
  || match s with
     | EmptyString => false
     | String _ s' => includes s' sub
     end.

Section Handlers.

Variable wordList : list string.
(** The text of a number inside a template string. *)
Variable show_number : Z -> string.
(** The message the engine gives to a [TypeError]. *)
Variable type_error_message : string.

(** [error.message] *)
Definition message (e : Error) : string :=
  match e with
  | GameNotFound => "Game not found"
  | NotPlaying => "Game is not in playing state"
  | InvalidGuessFormat => "Invalid guess format"
  | WrongLength wordLength => "Guess must be " ++ show_number wordLength ++ " letters long"
  | NotLetters => "Guess must contain only letters"
  | NotValidWord => "Not a valid word"
  | NotYourTurn name => "It's " ++ name ++ "'s turn"
  | NoCandidateWords => "Invalid game state: no candidate words"
  | NoValidPatterns => "No valid patterns found"
  | TypeError => type_error_message
  end.

Definition create_message (e : CreateError) : string :=
  match e with
  | NamesRequired => "Player names are required for multiplayer mode"
  | CreateTypeError => type_error_message
  end.

(** The status code the handler of a guess gives to an exception. *)
Definition guess_error_status (msg : string) : nat :=
  if String.eqb msg "Game not found" then 404
  else if includes msg "must be"
          || includes msg "Not a valid"
          || includes msg "contain only"
          || includes msg "not in playing"
          || includes msg "turn"
  then 400
  else 500.

(** [POST /api/games]; [body] is [req.body], [None] when there is none. *)
Definition createGame (games : Games) (body : option GameConfig)
    (uuid : nat -> string) (randomIndex : nat) : Response * Games :=
  let config := default defaultConfig body in
  match createGame wordList games (Some config) uuid randomIndex with
  | (inr (gameId, gameState), games') =>
      (mkResponse 201 (CreatedBody gameId gameState), games')
  | (inl e, games') =>
      (mkResponse 500 (ErrorBody (create_message e)), games')
  end.

(** [POST /api/games/guess] *)
Definition submitGuess (games : Games) (req : GuessRequest) : Response * Games :=
  if negb (truthy (req_gameId req)) || negb (truthy (req_guess req))
  then (mkResponse 400 (ErrorBody "Game ID and guess are required"), games)
  else
    match submitGuess wordList games (default "" (req_gameId req))
                      (default "" (req_guess req)) (req_playerId req) with
    | (inr (gameState, scoredGuess), games') =>
        (mkResponse 200 (GuessBody gameState scoredGuess), games')
    | (inl e, games') =>
        (mkResponse (guess_error_status (message e)) (ErrorBody (message e)), games')
    end.

(** [GET /api/games/:gameId] *)
Definition getGame (games : Games) (gameId : string) : Response :=
  if decide (gameId = "") then mkResponse 400 (ErrorBody "Game ID is required")
  else
    match getGame games gameId with
    | None => mkResponse 404 (ErrorBody "Game not found")
    | Some gameState => mkResponse 200 (StateBody gameState)
    end.

(** [GET /api/games/:gameId/answer] *)
Definition getGameAnswer (games : Games) (gameId : string) : Response :=
  if decide (gameId = "") then mkResponse 400 (ErrorBody "Game ID is required")
  else
    match getGameAnswer games gameId with
    | None => mkResponse 404 (ErrorBody "Game not found or still in progress")
    | Some answer => mkResponse 200 (AnswerBody answer)
    end.

End Handlers.

End Controller.

(** ** The client: keyboard colouring and the helpers of the views
    (frontend/src/utils/helpers.ts, App.tsx, GameGrid.tsx) *)

Module Client.

(** The object [keyState]: key -> state. *)
Abbreviation KeyState := (gmap ascii LetterState).

(** One letter of one guess in [updateKeyboardState]. *)
Definition update_key (keyState : KeyState) (letter : Letter) : KeyState :=
  let char := Js.upper_char (char letter) in
  let currentState := keyState !! char in
  match state letter with
  | Hit => <[char := Hit]> keyState
  | Present =>
      if decide (currentState ≠ Some Hit) then <[char := Present]> keyState
      else keyState
  | Miss =>
      match currentState with
      | None => <[char := Miss]> keyState
      | Some _ => keyState
      end
  | Empty => keyState
  end.

Definition updateKeyboardState (guesses : list Guess) : KeyState :=
  foldl (fun keyState guess => foldl update_key keyState guess) ∅ guesses.

(** [checkTieCondition] of the multiplayer view. *)
Definition checkTieCondition (gameState : ClientGameState) : bool :=
  bool_decide (c_gameStatus gameState = won)
  && bool_decide (1 < length (filter (fun p => isWinner p = true) (c_players gameState)))%nat.

(** [players.find(p => p.isWinner)?.name], the winner the view names. *)
Definition shown_winner (gameState : ClientGameState) : option string :=
  player_name <$> head (filter (fun p => isWinner p = true) (c_players gameState)).

(** [getCurrentPlayerId]; [None] is [undefined]. *)
Definition getCurrentPlayerId (gameState : option ClientGameState) : option string :=
  match gameState with
  | None => None
  | Some gameState =>
      match c_mode gameState with
      | single | absurdle => None
      | multiplayer =>
          player_id <$> c_players gameState !! c_currentPlayerIndex gameState
      end
  end.

End Client.

(** ** More sample sessions *)

Module Fixtures.

(** A single-player game of two rounds before its first guess. *)
Definition classic : ServerGameState :=
  mkGame "g5" "SLATE" single [Sample.solo] 0 0 playing None 2 5 None.

Definition store : Games := <["g5" := classic]> Sample.store.

(** The sample games after one accepted guess. *)
Definition duel_crane : ServerGameState :=
  record_guess "CRANE" (scoreGuess "CRANE" "CRANE") Sample.alice Sample.duel.

Definition duel_slate : ServerGameState :=
  record_guess "SLATE" (scoreGuess "SLATE" "CRANE") Sample.alice Sample.duel.

Definition classic_slate : ServerGameState :=
  record_guess "SLATE" (scoreGuess "SLATE" "SLATE") Sample.solo classic.

Definition hunt_crane : ServerGameState :=
  record_guess "CRANE" (scoreGuess "CRANE" "APPLE") Sample.solo
    (set_answer "APPLE" (set_candidateWords (Some ["APPLE"]) Sample.hunt)).

End Fixtures.

(** ** Vocabulary of the further properties *)

(** The player record after an accepted guess: the scored guess is appended
    and the winner flag is raised by a winning guess. *)
Definition guessed (scoredGuess : Guess) (isWin : bool) (p : Player) : Player :=
  mkPlayer (player_id p) (player_name p) (guesses p ++ [scoredGuess])%list
           (isWinner p || isWin).

(** The number of guesses a player at position [k] has made, relative to the
    round counter: in a multiplayer game the players before the turn index
    have already guessed in the current round; in the other modes the winning
    guess is not counted as a round. *)
Definition guesses_ahead (game : ServerGameState) (k : nat) : Z :=
  match mode game with
  | multiplayer => if decide (k < currentPlayerIndex game)%nat then 1 else 0
  | single | absurdle => if decide (gameStatus game = won) then 1 else 0
  end.

(** The priority of a key colour: hit > present > miss. *)
Definition priority (s : LetterState) : nat :=
  match s with
  | Hit => 3
  | Present => 2
  | Miss => 1
  | Empty => 0
  end.

(** The letters of the guesses that colour the key [c]. *)
Definition key_letters (guesses : list Guess) (c : ascii) : list Letter :=
  filter (fun l => Js.upper_char (char l) = c ∧ state l ≠ Empty) (concat guesses).

(** The invariant of stored games. *)
Record well_formed (wordList : list string) (game : ServerGameState) : Prop := {
  wf_index :
    players game ≠ [] → (currentPlayerIndex game < length (players game))%nat;
  wf_single :
    mode game ≠ multiplayer →
    length (players game) = 1%nat ∧ currentPlayerIndex game = 0%nat;
  wf_row : (0 ≤ currentRow game)%Z;
  wf_guesses :
    ∀ k p, players game !! k = Some p →
      Z.of_nat (length (guesses p)) = (currentRow game + guesses_ahead game k)%Z;
  wf_guess_length :
    ∀ k p g, players game !! k = Some p → g ∈ guesses p →
      Z.of_nat (length g) = wordLength game;
  wf_winner :
    gameStatus game = won ↔ winnerId game ≠ None;
  wf_won :
    gameStatus game = won →
    ∃ first rest,
      winners game = first :: rest ∧ winnerId game = Some (player_id first);
  wf_lost :
    gameStatus game = lost →
    winners game = [] ∧ (maxRounds game ≤ currentRow game)%Z;
  wf_playing :
    gameStatus game = playing →
    (currentRow game < maxRounds game)%Z ∨ currentRow game = 0%Z;
  wf_undecided :
    gameStatus game = playing →
    mode game ≠ multiplayer ∨ currentPlayerIndex game = 0%nat →
    winners game = [];
  wf_pool :
    mode game = absurdle →
    ∃ pool,
      candidateWords game = Some pool
      ∧ pool ⊆ wordList
      ∧ (wordList ≠ [] → pool ≠ [])
      ∧ (answer game ≠ "" → answer game ∈ pool);
  wf_answer :
    mode game ≠ absurdle →
    candidateWords game = None ∧ answer game ∈ map Js.toUpperCase wordList
}.

(** The games that can be in the store: created by [createGame], then
    changed by [submitGuess] only. *)
Inductive reachable (wordList : list string) : ServerGameState -> Prop :=
  | reach_created games config uuid randomIndex gameId gameState games' game :
      createGame wordList games config uuid randomIndex
      = (inr (gameId, gameState), games') ->
      games' !! gameId = Some game ->
      reachable wordList game
  | reach_submitted games gameId game guess playerId out games' game' :
      reachable wordList game ->
      games !! gameId = Some game ->
      submitGuess wordList games gameId guess playerId = (out, games') ->
      games' !! gameId = Some game' ->
      reachable wordList game'.

(** * Properties *)

Local Close Scope string_scope.
Local Open Scope list_scope.

(** ** Scorer: the loops compute the structural recursions *)

Lemma array_set_end {A} (x : A) (arr : list A) :
  Js.array_set (length arr) x arr = (arr ++ [x])%list.
Proof. unfold Js.array_set. case_decide; [lia | done]. Qed.

Lemma array_set_middle {A} (x y : A) (pre post : list A) :
  Js.array_set (length pre) x (pre ++ y :: post) = (pre ++ x :: post)%list.
Proof.
  unfold Js.array_set. case_decide as Hlt.
  - rewrite insert_app_r_alt by lia. by rewrite Nat.sub_diag.
  - rewrite length_app in Hlt. simpl in Hlt. lia.
Qed.

Lemma pass1_forEach answerArray guessRest :
  ∀ result cnt,
    Js.forEach_from (pass1_step answerArray) guessRest (length result) (result, cnt)
    = let r := pass1_rec guessRest (drop (length result) answerArray) cnt in
      ((result ++ r.1)%list, r.2).
Proof.
  induction guessRest as [|letter guessRest IH]; intros result cnt; simpl.
  - by rewrite app_nil_r.
  - assert (Hhead : head (drop (length result) answerArray)
                    = answerArray !! length result).
    { rewrite head_lookup, lookup_drop. f_equal. lia. }
    assert (Htail : tail (drop (length result) answerArray)
                    = drop (S (length result)) answerArray).
    { replace (S (length result)) with (length result + 1) by lia.
      rewrite <- drop_drop. by destruct (drop (length result) answerArray). }
    rewrite Hhead, Htail, !array_set_end.
    case_decide.
    + specialize (IH (result ++ [mkLetter letter Hit])%list (decrement letter cnt)).
      rewrite length_app in IH. simpl in IH.
      replace (length result + 1) with (S (length result)) in IH by lia.
      rewrite IH. simpl. by rewrite <- app_assoc.
    + specialize (IH (result ++ [mkLetter letter Empty])%list cnt).
      rewrite length_app in IH. simpl in IH.
      replace (length result + 1) with (S (length result)) in IH by lia.
      rewrite IH. simpl. by rewrite <- app_assoc.
Qed.

Lemma pass2_foldl rest :
  ∀ pre cnt,
    foldl pass2_step ((pre ++ rest)%list, cnt) (seq (length pre) (length rest))
    = let r := pass2_rec rest cnt in ((pre ++ r.1)%list, r.2).
Proof.
  induction rest as [|letterObj rest IH]; intros pre cnt.
  - done.
  - cbn [length seq foldl pass2_rec]. unfold pass2_step at 2.
    assert (Hlook : (pre ++ letterObj :: rest) !! length pre = Some letterObj).
    { by rewrite list_lookup_middle. }
    rewrite Hlook.
    assert (Hnext : ∀ x c,
      foldl pass2_step ((pre ++ x :: rest)%list, c) (seq (S (length pre)) (length rest))
      = ((pre ++ x :: (pass2_rec rest c).1)%list, (pass2_rec rest c).2)).
    { intros x c. specialize (IH (pre ++ [x])%list c).
      rewrite length_app, <- app_assoc in IH. simpl in IH.
      replace (length pre + 1) with (S (length pre)) in IH by lia.
      rewrite IH. simpl. by rewrite <- app_assoc. }
    destruct (state letterObj) eqn:Hst.
    + apply Hnext.
    + apply Hnext.
    + apply Hnext.
    + destruct (positive_count cnt (char letterObj));
        rewrite array_set_middle; apply Hnext.
Qed.

(** [scoreGuess] is the second pass run over the result of the first. *)
Lemma scoreGuess_rec guess answer :
  scoreGuess guess answer
  = let r1 := pass1_rec (letters guess) (letters answer)
                        (foldl count_letter ∅ (letters answer)) in
    (pass2_rec r1.1 r1.2).1.
Proof.
  unfold scoreGuess, Js.forEach, letters.
  pose proof (pass1_forEach (Js.split (Js.toUpperCase answer))
                (Js.split (Js.toUpperCase guess)) []
                (foldl count_letter ∅ (Js.split (Js.toUpperCase answer)))) as H1.
  simpl in H1. rewrite H1. simpl.
  set (r1 := pass1_rec _ _ _).
  pose proof (pass2_foldl r1.1 [] r1.2) as H2. simpl in H2.
  by rewrite H2.
Qed.

Example scoreGuess_llama_alloy :
  verdicts (scoreGuess "LLAMA" "ALLOY") = [Present; Hit; Present; Miss; Miss].
Proof. vm_compute. reflexivity. Qed.

(** Two E in the guess, one in the answer: one Present, one Miss. *)
Example scoreGuess_speed_crane :
  verdicts (scoreGuess "SPEED" "CRANE") = [Miss; Miss; Present; Miss; Miss].
Proof. vm_compute. reflexivity. Qed.

(** Both words are folded to upper case before they are compared. *)
Example scoreGuess_case :
  scoreGuess "crane" "Crane" = scoreGuess "CRANE" "CRANE"
  ∧ verdicts (scoreGuess "crane" "Crane") = [Hit; Hit; Hit; Hit; Hit].
Proof. vm_compute. split; reflexivity. Qed.

(** ** Scorer: the counters *)

(** Case analysis on the [decide]s that counting one list element leaves. *)
Ltac count_cases :=
  repeat case_decide; simplify_eq/=; first [ lia | congruence | done ].

Lemma remaining_count_letter cnt letter c :
  remaining (count_letter cnt letter) c
  = (remaining cnt c + if decide (c = letter) then 1 else 0)%Z.
Proof.
  unfold remaining, count_letter. case_decide as Hc.
  - subst. by rewrite lookup_insert_eq.
  - rewrite lookup_insert_ne by congruence. lia.
Qed.

Lemma occurrences_cons c x w :
  occurrences c (x :: w) = (if decide (x = c) then 1 else 0) + occurrences c w.
Proof. unfold occurrences. rewrite filter_cons. by case_decide. Qed.

Lemma remaining_answer_count c answerArray :
  ∀ cnt, remaining (foldl count_letter cnt answerArray) c
         = (remaining cnt c + Z.of_nat (occurrences c answerArray))%Z.
Proof.
  induction answerArray as [|x w IH]; intros cnt; simpl.
  - unfold occurrences. simpl. lia.
  - rewrite IH, remaining_count_letter, occurrences_cons.
    repeat case_decide; subst; try congruence; lia.
Qed.

Lemma remaining_decrement cnt letter c :
  (0 < remaining cnt letter)%Z →
  remaining (decrement letter cnt) c
  = (remaining cnt c - if decide (c = letter) then 1 else 0)%Z.
Proof.
  unfold remaining, decrement. intros Hpos. case_decide as Hc.
  - subst. rewrite lookup_alter_eq.
    destruct (cnt !! letter); simpl in *; lia.
  - rewrite lookup_alter_ne by congruence. lia.
Qed.

Lemma positive_count_remaining cnt letter :
  positive_count cnt letter = true ↔ (0 < remaining cnt letter)%Z.
Proof.
  unfold positive_count, remaining. destruct (cnt !! letter); simpl.
  - apply Z.ltb_lt.
  - split; [done | lia].
Qed.

Lemma marked_cons s c l g :
  marked s c (l :: g)
  = (if decide (char l = c) then if decide (state l = s) then 1 else 0 else 0)
    + marked s c g.
Proof.
  unfold marked. rewrite filter_cons.
  repeat case_decide; simpl; try done; exfalso; tauto.
Qed.

Lemma marked_nil s c : marked s c [] = 0.
Proof. done. Qed.

(** Marks of two different verdicts on the letter [c] sit on different
    positions that all hold [c]. *)
Lemma marked_le_occurrences s1 s2 c (g : Guess) :
  s1 ≠ s2 → marked s1 c g + marked s2 c g ≤ occurrences c (map char g).
Proof.
  intros Hne. induction g as [|l g IH]; simpl.
  - done.
  - rewrite !marked_cons, occurrences_cons.
    count_cases.
Qed.

(** ** Scorer: what each pass does to marks and counters *)

Lemma pass1_rec_chars guessRest :
  ∀ answerRest cnt, map char (pass1_rec guessRest answerRest cnt).1 = guessRest.
Proof.
  induction guessRest as [|letter g IH]; intros a cnt; simpl; [done|].
  case_decide; simpl; by rewrite IH.
Qed.

Lemma pass1_rec_counts c guessRest :
  ∀ answerRest cnt,
    (∀ c', Z.of_nat (occurrences c' answerRest) ≤ remaining cnt c')%Z →
    let r := pass1_rec guessRest answerRest cnt in
    (remaining r.2 c + Z.of_nat (marked Hit c r.1) = remaining cnt c)%Z
    ∧ (0 ≤ remaining r.2 c)%Z
    ∧ marked Present c r.1 = 0.
Proof.
  induction guessRest as [|letter g IH]; intros a cnt Hcnt; simpl.
  - rewrite !marked_nil. specialize (Hcnt c). lia.
  - case_decide as Hhead; simpl.
    + destruct a as [|x a]; [done|]. simpl in Hhead. injection Hhead as ->.
      assert (Hpos : (0 < remaining cnt letter)%Z).
      { specialize (Hcnt letter). rewrite occurrences_cons in Hcnt.
        rewrite decide_True in Hcnt by done. lia. }
      destruct (IH a (decrement letter cnt)) as (Hsum & Hge & Hpres).
      { intros c'. rewrite remaining_decrement by done.
        specialize (Hcnt c'). rewrite occurrences_cons in Hcnt.
        repeat case_decide; subst; try congruence; lia. }
      rewrite !marked_cons. simpl.
      rewrite remaining_decrement in Hsum by done.
      count_cases.
    + destruct (IH (tail a) cnt) as (Hsum & Hge & Hpres).
      { intros c'. specialize (Hcnt c'). destruct a as [|x a]; simpl; [done|].
        rewrite occurrences_cons in Hcnt. lia. }
      rewrite !marked_cons. simpl.
      count_cases.
Qed.

Lemma pass2_rec_chars result :
  ∀ cnt, map char (pass2_rec result cnt).1 = map char result.
Proof.
  induction result as [|l rest IH]; intros cnt; simpl; [done|].
  destruct l as [ch st]; simpl.
  destruct st; simpl; try by rewrite IH.
  destruct (positive_count cnt ch); simpl; by rewrite IH.
Qed.

Lemma pass2_rec_counts c result :
  ∀ cnt,
    (0 ≤ remaining cnt c)%Z →
    let r := pass2_rec result cnt in
    (remaining r.2 c + Z.of_nat (marked Present c r.1)
     = remaining cnt c + Z.of_nat (marked Present c result))%Z
    ∧ (0 ≤ remaining r.2 c)%Z
    ∧ marked Hit c r.1 = marked Hit c result.
Proof.
  induction result as [|l rest IH]; intros cnt Hge; simpl.
  - done.
  - destruct l as [ch st]; simpl.
    destruct st; simpl;
      try (destruct (IH cnt Hge) as (Hsum & Hge' & Hhit);
           rewrite !marked_cons; simpl;
           count_cases).
    destruct (positive_count cnt ch) eqn:Hpos; simpl.
    + apply positive_count_remaining in Hpos.
      destruct (IH (decrement ch cnt)) as (Hsum & Hge' & Hhit).
      { rewrite remaining_decrement by done. case_decide; subst; lia. }
      rewrite remaining_decrement in Hsum by done.
      rewrite !marked_cons; simpl.
      count_cases.
    + destruct (IH cnt Hge) as (Hsum & Hge' & Hhit).
      rewrite !marked_cons; simpl.
      count_cases.
Qed.

Lemma pass2_rec_no_empty result :
  ∀ cnt, Forall (fun l => state l ≠ Empty) (pass2_rec result cnt).1.
Proof.
  induction result as [|l rest IH]; intros cnt; simpl; [constructor|].
  destruct (state l) eqn:Hst; simpl.
  - constructor; [congruence | apply IH].
  - constructor; [congruence | apply IH].
  - constructor; [congruence | apply IH].
  - destruct (positive_count cnt (char l)); simpl;
      (constructor; [done | apply IH]).
Qed.

(** A word made of upper-case letters only (what [submitGuess] passes to the
    scorer) is its own upper-case form, so its [letters] are its characters. *)
Lemma upper_char_letter c : is_upper_letter c = true → Js.upper_char c = c.
Proof.
  unfold is_upper_letter, Js.upper_char. intros H.
  apply andb_prop in H as [H1 H2].
  apply Nat.leb_le in H1, H2.
  destruct (97 <=? nat_of_ascii c) eqn:E; [|done].
  apply Nat.leb_le in E. lia.
Qed.

Lemma letters_normalized w :
  forallb is_upper_letter (Js.split w) = true → letters w = Js.split w.
Proof.
  unfold letters, Js.split. induction w as [|c w IH]; simpl; [done|].
  intros H. apply andb_prop in H as [Hc Hw].
  by rewrite upper_char_letter, IH.
Qed.

(** C1.  Letter-count conservation of the Scorer: for every guess, every
    answer and every letter [c], the positions of [scoreGuess guess answer]
    marked Hit with character [c] plus those marked Present with character
    [c] number at most the minimum of the occurrences of [c] in the guess and
    in the answer.  The scorer folds both words to upper case before it
    compares them, so occurrences are counted among the [letters] of each
    word; for the upper-case words the service works with these are the
    characters of the word itself ([letters_normalized]).  The bound does
    not need the two words to have the same length. *)
Theorem scoreGuess_letter_conservation (guess answer : string) (c : ascii) :
  marked Hit c (scoreGuess guess answer) + marked Present c (scoreGuess guess answer)
  ≤ Nat.min (occurrences c (letters guess)) (occurrences c (letters answer)).
Proof.
  rewrite scoreGuess_rec. cbv zeta.
  set (cnt0 := foldl count_letter ∅ (letters answer)).
  set (r1 := pass1_rec (letters guess) (letters answer) cnt0).
  apply Nat.min_glb.
  - etransitivity; [apply (marked_le_occurrences Hit Present); done|].
    rewrite pass2_rec_chars. unfold r1. by rewrite pass1_rec_chars.
  - assert (Hcnt0 : ∀ c', remaining cnt0 c' = Z.of_nat (occurrences c' (letters answer))).
    { intros c'. unfold cnt0. rewrite remaining_answer_count.
      unfold remaining. rewrite lookup_empty. simpl. lia. }
    destruct (pass1_rec_counts c (letters guess) (letters answer) cnt0)
      as (Hsum1 & Hge1 & Hpres1).
    { intros c'. rewrite Hcnt0. lia. }
    fold r1 in Hsum1, Hge1, Hpres1.
    destruct (pass2_rec_counts c r1.1 r1.2 Hge1) as (Hsum2 & Hge2 & Hhit2).
    rewrite Hcnt0 in Hsum1. lia.
Qed.

(** C10.  Every position of the Scorer's output carries Hit, Present or
    Miss: the placeholder [Empty] written by the first pass never survives
    the second pass, and the output has one entry per letter of the guess,
    in order.  (No assumption on the lengths of the two words is needed.) *)
Theorem scoreGuess_no_empty (guess answer : string) :
  map char (scoreGuess guess answer) = letters guess
  ∧ Forall (fun l => state l = Hit ∨ state l = Present ∨ state l = Miss)
           (scoreGuess guess answer).
Proof.
  rewrite scoreGuess_rec. cbv zeta. split.
  - by rewrite pass2_rec_chars, pass1_rec_chars.
  - eapply Forall_impl; [apply pass2_rec_no_empty|].
    intros l Hl. simpl in Hl. destruct (state l); auto. done.
Qed.

(** ** Helpfulness *)

Lemma count_state_cons s l (g : Guess) :
  count_state s (l :: g) = (if decide (state l = s) then 1 else 0) + count_state s g.
Proof. unfold count_state. rewrite filter_cons. by case_decide. Qed.

Lemma scorePattern_from (pattern : Guess) :
  ∀ score0,
    foldl (fun score letter =>
             match state letter with
             | Hit => score + 6
             | Present => score + 1
             | _ => score
             end) score0 pattern
    = score0 + 6 * count_state Hit pattern + count_state Present pattern.
Proof.
  induction pattern as [|l g IH]; intros score0; simpl.
  - unfold count_state. simpl. lia.
  - rewrite IH, !count_state_cons. destruct (state l); count_cases.
Qed.

Lemma scorePattern_formula (pattern : Guess) :
  scorePattern pattern = 6 * count_state Hit pattern + count_state Present pattern.
Proof. unfold scorePattern. by rewrite scorePattern_from. Qed.

Lemma count_state_all s (g : Guess) :
  Forall (fun l => state l = s) g →
  count_state s g = length g ∧ ∀ s', s' ≠ s → count_state s' g = 0.
Proof.
  induction 1 as [|l g Hl _ [IH1 IH2]]; [done|].
  split.
  - rewrite count_state_cons, IH1. simpl. count_cases.
  - intros s' Hs'. rewrite count_state_cons, (IH2 s' Hs'). count_cases.
Qed.

(** C5.  The helpfulness of a pattern is 6 times its number of Hits plus 1
    times its number of Presents; hence a pattern with at least one Hit has
    helpfulness at least 6, strictly more than the helpfulness 5 of any
    pattern of five Presents. *)
Theorem scorePattern_weighting (pattern : Guess) :
  scorePattern pattern
  = 6 * count_state Hit pattern + 1 * count_state Present pattern
  ∧ ∀ presents : Guess,
      1 ≤ count_state Hit pattern →
      length presents = 5 →
      Forall (fun l => state l = Present) presents →
      6 ≤ scorePattern pattern
      ∧ scorePattern presents = 5
      ∧ scorePattern presents < scorePattern pattern.
Proof.
  split; [rewrite scorePattern_formula; lia|].
  intros presents Hhit Hlen Hall.
  rewrite !scorePattern_formula.
  destruct (count_state_all Present presents Hall) as [Hp Hother].
  rewrite Hp, (Hother Hit) by done. lia.
Qed.

Lemma scorePattern_weighting_witness :
  scorePattern [mkLetter "A" Hit; mkLetter "B" Miss] = 6
  ∧ scorePattern (replicate 5 (mkLetter "C" Present)) = 5
  ∧ scorePattern (replicate 5 (mkLetter "C" Present))
    < scorePattern [mkLetter "A" Hit; mkLetter "B" Miss].
Proof.
  pose proof (scorePattern_weighting [mkLetter "A" Hit; mkLetter "B" Miss]%char)
    as [Heq Hdom].
  destruct (Hdom (replicate 5 (mkLetter "C" Present))) as (H6 & H5 & Hlt).
  - vm_compute. lia.
  - reflexivity.
  - repeat constructor.
  - split; [exact Heq | split; [exact H5 | exact Hlt]].
Defined.

(** ** Adversarial selector *)

Lemma wordScores_of_map guessUpper candidateWords :
  wordScores_of guessUpper candidateWords
  = map (fun candidate =>
           mkWordScore candidate (scoreGuess guessUpper candidate)
                       (scorePattern (scoreGuess guessUpper candidate)))
        candidateWords.
Proof.
  unfold wordScores_of.
  enough (H : ∀ acc,
    foldl (fun wordScores candidate =>
             wordScores ++ [mkWordScore candidate (scoreGuess guessUpper candidate)
                              (scorePattern (scoreGuess guessUpper candidate))])
          acc candidateWords
    = acc ++ map (fun candidate =>
                    mkWordScore candidate (scoreGuess guessUpper candidate)
                                (scorePattern (scoreGuess guessUpper candidate)))
                 candidateWords) by apply (H []).
  induction candidateWords as [|w ws IH]; intros acc; simpl.
  - by rewrite app_nil_r.
  - rewrite IH, <- app_assoc. done.
Qed.

Lemma foldl_min_spec xs :
  ∀ x, foldl Nat.min x xs ≤ x
       ∧ Forall (fun y => foldl Nat.min x xs ≤ y) xs
       ∧ foldl Nat.min x xs ∈ x :: xs.
Proof.
  induction xs as [|y ys IH]; intros x; simpl.
  - split_and!; [lia | constructor | left].
  - destruct (IH (x `min` y)) as (Hle & Hall & Hin). split_and!.
    + lia.
    + constructor; [lia | done].
    + apply elem_of_cons in Hin as [Hin | Hin].
      * rewrite Hin. destruct (Nat.min_dec x y) as [-> | ->]; [left | right; left].
      * right; right; done.
Qed.

(** [Math.min] of a non-empty list is its least element. *)
Lemma Math_min_spec xs :
  xs ≠ [] →
  ∃ m, Js.Math_min xs = Some m ∧ m ∈ xs ∧ Forall (fun y => m ≤ y) xs.
Proof.
  destruct xs as [|x xs]; [done|]. intros _.
  destruct (foldl_min_spec xs x) as (Hle & Hall & Hin).
  exists (foldl Nat.min x xs). split_and!; [done | done | by constructor].
Qed.

Lemma filter_map {A B} (f : A → B) (P : B → Prop) `{!∀ y, Decision (P y)}
    (l : list A) :
  filter P (map f l) = map f (filter (fun x => P (f x)) l).
Proof.
  induction l as [|x l IH]; simpl; [done|].
  rewrite !filter_cons. case_decide; simpl; by rewrite IH.
Qed.

Lemma filter_ext_elem {A} (P Q : A → Prop)
    `{!∀ x, Decision (P x)} `{!∀ x, Decision (Q x)} (l : list A) :
  (∀ x, x ∈ l → P x ↔ Q x) → filter P l = filter Q l.
Proof.
  induction l as [|x l IH]; intros Hl; [done|].
  rewrite !filter_cons.
  assert (Hx : P x ↔ Q x) by (apply Hl; left).
  rewrite IH by (intros y Hy; apply Hl; by right).
  repeat case_decide; tauto.
Qed.

(** The words kept by the selector are the candidates of least helpfulness. *)
Lemma lowest_scoring_minimalSet guess pool m :
  Js.Math_min (map (helpfulness guess) pool) = Some m →
  filter (fun w => Some (helpfulness guess w) = Some m) pool = minimalSet guess pool.
Proof.
  intros Hmin. unfold minimalSet.
  destruct (decide (pool = [])) as [-> | Hne]; [done|].
  destruct (Math_min_spec (map (helpfulness guess) pool)) as (m' & Hm' & Hin & Hall).
  { by destruct pool. }
  rewrite Hmin in Hm'. injection Hm' as <-.
  rewrite Forall_forall in Hall.
  apply filter_ext_elem. intros w Hw. unfold attains_min. split.
  - intros [= ->]. apply Forall_forall.
    intros w' Hw'. apply Hall. apply list_elem_of_In, in_map. by apply list_elem_of_In.
  - intros Hleast. f_equal. apply Nat.le_antisymm.
    + apply list_elem_of_In, in_map_iff in Hin as (w0 & <- & Hw0).
      rewrite Forall_forall in Hleast. apply Hleast. by apply list_elem_of_In.
    + apply Hall. apply list_elem_of_In, in_map. by apply list_elem_of_In.
Qed.

Lemma minimalSet_nonempty guess pool : pool ≠ [] → minimalSet guess pool ≠ [].
Proof.
  intros Hne.
  destruct (Math_min_spec (map (helpfulness guess) pool)) as (m & _ & Hin & Hall).
  { by destruct pool. }
  apply list_elem_of_In, in_map_iff in Hin as (w & <- & Hw).
  intros Hnil.
  assert (Hin : w ∈ minimalSet guess pool).
  { unfold minimalSet. apply list_elem_of_filter. split; [|by apply list_elem_of_In].
    unfold attains_min. apply Forall_forall. intros w' Hw'.
    rewrite Forall_forall in Hall. apply Hall.
    apply list_elem_of_In, in_map. by apply list_elem_of_In. }
  rewrite Hnil in Hin. by apply elem_of_nil in Hin.
Qed.

Lemma minimalSet_helpfulness guess pool w w' :
  w ∈ minimalSet guess pool → w' ∈ minimalSet guess pool →
  helpfulness guess w = helpfulness guess w'.
Proof.
  unfold minimalSet. rewrite !list_elem_of_filter. unfold attains_min.
  rewrite !Forall_forall. intros [H1 Hw] [H2 Hw'].
  apply Nat.le_antisymm; auto.
Qed.

(** The selector on a non-empty pool, in terms of the minimal set: it
    withholds (all letters [Empty], nothing selected) when the least
    helpfulness is 0 and several candidates attain it, and otherwise selects
    the first minimal candidate and returns its pattern. *)
Lemma absurdleScoreGuess_minimalSet guess pool :
  pool ≠ [] →
  ∃ first rest,
    minimalSet guess pool = first :: rest
    ∧ absurdleScoreGuess guess pool
      = inr (if decide (helpfulness guess first = 0 ∧ rest ≠ [])
             then mkAbsurdleResult
                    (map (fun char => mkLetter char Empty) (letters guess))
                    (first :: rest) None
             else mkAbsurdleResult
                    (scoreGuess (Js.toUpperCase guess) first)
                    (first :: rest) (Some first)).
Proof.
  intros Hne.
  destruct (Math_min_spec (map (helpfulness guess) pool)) as (m & Hmin & Hin & Hall).
  { by destruct pool. }
  pose proof (minimalSet_nonempty guess pool Hne) as Hmne.
  destruct (minimalSet guess pool) as [|first rest] eqn:Hms; [done|].
  exists first, rest. split; [done|].
  assert (Hfirst : helpfulness guess first = m).
  { assert (Hf : first ∈ minimalSet guess pool) by (rewrite Hms; left).
    apply list_elem_of_In, in_map_iff in Hin as (w & <- & Hw).
    apply minimalSet_helpfulness with pool; [done|].
    unfold minimalSet. apply list_elem_of_filter. split; [|by apply list_elem_of_In].
    unfold attains_min. apply Forall_forall. intros w' Hw'.
    rewrite Forall_forall in Hall. apply Hall.
    apply list_elem_of_In, in_map. by apply list_elem_of_In. }
  unfold absurdleScoreGuess. cbv zeta.
  rewrite wordScores_of_map, map_map. simpl.
  change (map (fun x => scorePattern (scoreGuess (Js.toUpperCase guess) x)) pool)
    with (map (helpfulness guess) pool).
  rewrite Hmin, filter_map. simpl.
  assert (Hfilter :
    filter (fun x => Some (scorePattern (scoreGuess (Js.toUpperCase guess) x)) = Some m) pool
    = first :: rest).
  { rewrite <- Hms, <- (lowest_scoring_minimalSet guess pool m Hmin).
    apply filter_ext_elem. intros w _. done. }
  rewrite Hfilter. simpl. rewrite map_map. simpl. rewrite map_id.
  rewrite Hfirst.
  destruct (decide (Some m = Some 0)) as [Heq | Hneq].
  - injection Heq as ->. by destruct rest.
  - case_decide as Hc; [destruct Hc; congruence | done].
Qed.

(** C4.  On a non-empty pool the selector returns a result whose narrowed
    pool ([remainingWords]) is contained in the input pool and whose resolved
    answer ([selectedAnswer]), when there is one, is a word of the input
    pool. *)
Theorem absurdleScoreGuess_within_pool (guess : string) (pool : list string) :
  pool ≠ [] →
  ∃ r, absurdleScoreGuess guess pool = inr r
       ∧ remainingWords r ⊆ pool
       ∧ ∀ a, selectedAnswer r = Some a → a ∈ pool.
Proof.
  intros Hne.
  destruct (absurdleScoreGuess_minimalSet guess pool Hne)
    as (first & rest & Hms & Hres).
  assert (Hsub : first :: rest ⊆ pool).
  { rewrite <- Hms. intros w Hw. unfold minimalSet in Hw.
    by apply list_elem_of_filter in Hw as [_ Hw]. }
  eexists. split; [exact Hres|].
  case_decide; simpl.
  - split; [done | intros a [=]].
  - split; [done|]. intros a [= <-]. apply Hsub. left.
Qed.

Lemma absurdleScoreGuess_within_pool_witness :
  ∃ r, absurdleScoreGuess "CRANE" ["CRANE"; "SLATE"]%string = inr r
       ∧ remainingWords r ⊆ ["CRANE"; "SLATE"]%string
       ∧ ∀ a, selectedAnswer r = Some a → a ∈ ["CRANE"; "SLATE"]%string.
Proof. apply (absurdleScoreGuess_within_pool "CRANE" ["CRANE"; "SLATE"]%string). done. Defined.

(** C2, as the code has it.  On a non-empty pool whose least helpfulness is
    0 and is attained by more than one candidate, the selector returns a
    pattern with one entry per letter of the (upper-cased) guess, every entry
    in the placeholder state [Empty] (the specification says Miss); it selects no
    answer, and the narrowed pool is the list of the candidates attaining the
    minimum. *)
Theorem absurdleScoreGuess_withholds (guess : string) (pool : list string) :
  pool ≠ [] →
  (∀ w, w ∈ minimalSet guess pool → helpfulness guess w = 0) →
  1 < length (minimalSet guess pool) →
  absurdleScoreGuess guess pool
  = inr (mkAbsurdleResult
           (map (fun char => mkLetter char Empty) (letters guess))
           (minimalSet guess pool)
           None).
Proof.
  intros Hne Hzero Hmany.
  destruct (absurdleScoreGuess_minimalSet guess pool Hne)
    as (first & rest & Hms & Hres).
  rewrite Hres, Hms. rewrite Hms in Hzero, Hmany.
  rewrite decide_True; [done|]. split.
  - apply Hzero. left.
  - destruct rest; simpl in *; [lia | done].
Qed.

Lemma absurdleScoreGuess_withholds_witness :
  absurdleScoreGuess "XY" ["AB"; "CD"]%string
  = inr (mkAbsurdleResult
           [mkLetter "X" Empty; mkLetter "Y" Empty]
           ["AB"; "CD"]%string
           None).
Proof.
  apply (absurdleScoreGuess_withholds "XY" ["AB"; "CD"]%string).
  - done.
  - intros w Hw. vm_compute in Hw.
    apply elem_of_cons in Hw as [-> | Hw]; [reflexivity|].
    apply list_elem_of_singleton in Hw as ->. reflexivity.
  - vm_compute. lia.
Defined.

(** C2, counterexample to the specification's statement: guess XY against the pool
    AB, CD.  Both candidates have helpfulness 0, so the minimum is 0 and two
    candidates attain it; the returned pattern is not all Miss (its entries
    are [Empty]). *)
Lemma absurdleScoreGuess_withholds_not_miss :
  minimalSet "XY" ["AB"; "CD"]%string = ["AB"; "CD"]%string
  ∧ helpfulness "XY" "AB" = 0
  ∧ helpfulness "XY" "CD" = 0
  ∧ ∃ r, absurdleScoreGuess "XY" ["AB"; "CD"]%string = inr r
         ∧ verdicts (finalPattern r) = [Empty; Empty]
         ∧ ¬ Forall (fun l => state l = Miss) (finalPattern r).
Proof.
  split_and!; try (vm_compute; reflexivity).
  eexists. split; [vm_compute; reflexivity|]. split; [reflexivity|].
  intros H. by inversion H.
Qed.

(** ** Guess submission: how [submitGuess] ends *)

Section ServiceProperties.

Variable wordList : list string.

(** A call that throws either leaves the store as it was, or it is the
    [TypeError] of a game whose current player does not exist, thrown after
    the scoring step has written to the game. *)
Lemma submitGuess_throws games gameId guess playerId e games' :
  submitGuess wordList games gameId guess playerId = (inl e, games') →
  games' = games
  ∨ (e = TypeError
     ∧ ∃ game scoredGuess game1,
         games !! gameId = Some game
         ∧ score_step (normalize guess) game = inr (scoredGuess, game1)
         ∧ players game1 !! currentPlayerIndex game1 = None
         ∧ games' = <[gameId := game1]> games).
Proof.
  unfold submitGuess. fold (normalize guess).
  destruct (games !! gameId) as [game|] eqn:Hgame; [|intros [= <- <-]; by left].
  repeat (case_decide; [intros [= <- <-]; by left|]).
  destruct (negb (only_letters (normalize guess))); [intros [= <- <-]; by left|].
  destruct (negb (isValidWord wordList (normalize guess))); [intros [= <- <-]; by left|].
  destruct (turn_check game playerId); [intros [= <- <-]; by left|].
  destruct (score_step (normalize guess) game) as [e'|[scoredGuess game1]] eqn:Hscore;
    [intros [= <- <-]; by left|].
  destruct (players game1 !! currentPlayerIndex game1) eqn:Hplayer; [done|].
  intros [= <- <-]. right. split; [done|]. by exists game, scoredGuess, game1.
Qed.

(** A call that returns went through every check, scored the guess and
    stored the updated game. *)
Lemma submitGuess_returns games gameId guess playerId res games' :
  submitGuess wordList games gameId guess playerId = (inr res, games') →
  ∃ game scoredGuess game1 currentPlayer,
    games !! gameId = Some game
    ∧ gameStatus game = playing
    ∧ Z.of_nat (String.length (normalize guess)) = wordLength game
    ∧ only_letters (normalize guess) = true
    ∧ isValidWord wordList (normalize guess) = true
    ∧ turn_check game playerId = None
    ∧ score_step (normalize guess) game = inr (scoredGuess, game1)
    ∧ players game1 !! currentPlayerIndex game1 = Some currentPlayer
    ∧ res = (toClientGameState
               (record_guess (normalize guess) scoredGuess currentPlayer game1) "",
             scoredGuess)
    ∧ games' = <[gameId := record_guess (normalize guess) scoredGuess currentPlayer game1]>
                 games.
Proof.
  unfold submitGuess. fold (normalize guess).
  destruct (games !! gameId) as [game|] eqn:Hgame; [|done].
  case_decide as Hstatus; [done|].
  case_decide as Hempty; [done|].
  case_decide as Hlen; [done|].
  destruct (only_letters (normalize guess)) eqn:Hletters; [|done].
  destruct (isValidWord wordList (normalize guess)) eqn:Hvalid; [|done].
  destruct (turn_check game playerId) eqn:Hturn; [done|].
  destruct (score_step (normalize guess) game) as [e'|[scoredGuess game1]] eqn:Hscore;
    [done|].
  destruct (players game1 !! currentPlayerIndex game1) as [currentPlayer|] eqn:Hplayer;
    [|done].
  simpl. intros [= <- <-].
  exists game, scoredGuess, game1, currentPlayer.
  split_and!; done.
Qed.

(** The scoring step writes at most [candidateWords] and [answer]. *)
Lemma score_step_frame normalizedGuess game scoredGuess game1 :
  score_step normalizedGuess game = inr (scoredGuess, game1) →
  game_id game1 = game_id game
  ∧ mode game1 = mode game
  ∧ players game1 = players game
  ∧ currentPlayerIndex game1 = currentPlayerIndex game
  ∧ currentRow game1 = currentRow game
  ∧ gameStatus game1 = gameStatus game
  ∧ winnerId game1 = winnerId game
  ∧ maxRounds game1 = maxRounds game
  ∧ wordLength game1 = wordLength game.
Proof.
  unfold score_step. case_decide.
  - destruct (candidateWords game) as [[|w ws]|]; try done.
    destruct (absurdleScoreGuess normalizedGuess (w :: ws)) as [|r]; [done|].
    destruct (selectedAnswer r) as [a|]; [|by intros [= <- <-]].
    destruct (truthy (Some a)); by intros [= <- <-].
  - by intros [= <- <-].
Qed.

(** Outside an unresolved absurdle game the guess is scored against the
    fixed answer and the game is not written. *)
Lemma score_step_fixed normalizedGuess game scoredGuess game1 :
  ¬ (mode game = absurdle ∧ answer game = ""%string) →
  score_step normalizedGuess game = inr (scoredGuess, game1) →
  game1 = game ∧ scoredGuess = scoreGuess normalizedGuess (answer game).
Proof.
  unfold score_step. intros Hfixed. rewrite decide_False by done.
  by intros [= <- <-].
Qed.

(** Recording a scored guess leaves the configuration, the answer and the
    candidate list of the game alone. *)
Lemma record_guess_frame normalizedGuess scoredGuess currentPlayer game :
  let game' := record_guess normalizedGuess scoredGuess currentPlayer game in
  game_id game' = game_id game
  ∧ mode game' = mode game
  ∧ answer game' = answer game
  ∧ candidateWords game' = candidateWords game
  ∧ maxRounds game' = maxRounds game
  ∧ wordLength game' = wordLength game
  ∧ length (players game') = length (players game).
Proof.
  unfold record_guess, advance. simpl.
  repeat case_decide; repeat case_match; simpl; rewrite ?length_insert; done.
Qed.

(** In a multiplayer game the turn passes to the next player, and the round
    is counted when the turn comes back to the first player. *)
Lemma record_guess_multiplayer normalizedGuess scoredGuess currentPlayer game :
  mode game = multiplayer →
  let game' := record_guess normalizedGuess scoredGuess currentPlayer game in
  currentPlayerIndex game'
  = (currentPlayerIndex game + 1) mod length (players game)
  ∧ currentRow game'
    = (currentRow game + if decide (currentPlayerIndex game' = 0%nat) then 1 else 0)%Z.
Proof.
  intros Hmode. unfold record_guess, advance. simpl.
  rewrite decide_True by done. rewrite length_insert.
  repeat case_decide; repeat case_match; simpl in *; split; (done || lia).
Qed.

(** The selector keeps at least one word, and a selected answer is one of
    the words it keeps. *)
Lemma absurdleScoreGuess_remaining guess pool r :
  absurdleScoreGuess guess pool = inr r →
  remainingWords r ≠ [] ∧ ∀ a, selectedAnswer r = Some a → a ∈ remainingWords r.
Proof.
  destruct pool as [|w ws]; [done|]. intros Hres.
  destruct (absurdleScoreGuess_minimalSet guess (w :: ws)) as (first & rest & _ & Heq);
    [done|].
  rewrite Hres in Heq. injection Heq as ->. case_decide; simpl.
  - split; [done | intros a [=]].
  - split; [done|]. intros a [= <-]. left.
Qed.

(** The scoring step of an absurdle game with no answer yet: the candidate
    list becomes the list the selector keeps, and a selected answer becomes
    the answer. *)
Lemma score_step_unresolved normalizedGuess game scoredGuess game1 :
  mode game = absurdle → answer game = ""%string →
  score_step normalizedGuess game = inr (scoredGuess, game1) →
  ∃ pool r,
    candidateWords game = Some pool
    ∧ absurdleScoreGuess normalizedGuess pool = inr r
    ∧ candidateWords game1 = Some (remainingWords r)
    ∧ (∀ a, selectedAnswer r = Some a → answer game1 = a)
    ∧ (selectedAnswer r = None → answer game1 = ""%string).
Proof.
  intros Hmode Hanswer. unfold score_step. rewrite decide_True by done.
  destruct (candidateWords game) as [[|w ws]|] eqn:Hpool; try done.
  destruct (absurdleScoreGuess normalizedGuess (w :: ws)) as [|r] eqn:Hsel; [done|].
  intros Hstep. exists (w :: ws), r. split; [done|]. split; [done|].
  destruct (selectedAnswer r) as [a|] eqn:Ha.
  - unfold truthy in Hstep. case_decide as Hempty.
    + injection Hstep as <- <-. simpl. split_and!; [done | | done].
      intros ? [= <-]. by rewrite Hanswer.
    + injection Hstep as <- <-. simpl. split_and!; [done | | done].
      by intros ? [= <-].
  - injection Hstep as <- <-. simpl. split_and!; done.
Qed.

(** C3, as the code has it.  A guess submission that returns, on an absurdle
    game: while no answer is selected the candidate list is replaced by the
    list the selector keeps, which is never empty; when the selector selects
    an answer, that word becomes the answer of the game and the candidate
    list is the kept list, which contains it (the list is not cleared, so
    from then on the game has both an answer and a non-empty candidate list);
    when it selects none the answer stays unselected.  Once an answer is
    selected, later guesses change neither the answer nor the candidate
    list. *)
Theorem submitGuess_absurdle_resolution games gameId guess playerId res games' game :
  games !! gameId = Some game →
  mode game = absurdle →
  submitGuess wordList games gameId guess playerId = (inr res, games') →
  ∃ game',
    games' !! gameId = Some game'
    ∧ (answer game ≠ ""%string →
         answer game' = answer game ∧ candidateWords game' = candidateWords game)
    ∧ (answer game = ""%string →
         ∃ pool r,
           candidateWords game = Some pool
           ∧ absurdleScoreGuess (normalize guess) pool = inr r
           ∧ candidateWords game' = Some (remainingWords r)
           ∧ remainingWords r ≠ []
           ∧ (∀ a, selectedAnswer r = Some a →
                   answer game' = a ∧ a ∈ remainingWords r)
           ∧ (selectedAnswer r = None → answer game' = ""%string)).
Proof.
  intros Hgame Hmode Hcall.
  destruct (submitGuess_returns _ _ _ _ _ _ Hcall)
    as (game0 & scoredGuess & game1 & currentPlayer & Hgame0 & _ & _ & _ & _ & _
        & Hscore & _ & _ & ->).
  rewrite Hgame in Hgame0. injection Hgame0 as <-.
  eexists. split; [apply lookup_insert_eq|].
  destruct (record_guess_frame (normalize guess) scoredGuess currentPlayer game1)
    as (_ & _ & Hanswer' & Hpool' & _).
  rewrite Hanswer', Hpool'. split.
  - intros Hresolved.
    destruct (score_step_fixed (normalize guess) game scoredGuess game1) as [-> _];
      [by intros [_ ?] | done | done].
  - intros Hunresolved.
    destruct (score_step_unresolved _ _ _ _ Hmode Hunresolved Hscore)
      as (pool & r & Hpool & Hsel & Hkept & Hsome & Hnone).
    destruct (absurdleScoreGuess_remaining _ _ _ Hsel) as [Hne Hin].
    exists pool, r. split_and!; try done.
    intros a Ha. split; [by apply Hsome | by apply Hin].
Qed.

(** Arithmetic of the turn counter: [k] steps from position [i] among [n]
    players. *)
Lemma turn_step_mod (i k n : nat) :
  ((i + 1) mod n + k) mod n = (i + S k) mod n.
Proof.
  rewrite Nat.Div0.add_mod_idemp_l. f_equal. lia.
Qed.

Lemma turn_step_div (i k n : nat) :
  i < n →
  (if decide ((i + 1) mod n = 0) then 1 else 0) + ((i + 1) mod n + k) / n
  = (i + S k) / n.
Proof.
  intros Hi. destruct (decide (i + 1 = n)) as [Hlast | Hmore].
  - rewrite Hlast, Nat.Div0.mod_same. rewrite decide_True by done. simpl.
    replace (i + S k) with (k + 1 * n) by lia.
    rewrite Nat.div_add by lia. lia.
  - rewrite Nat.mod_small by lia. rewrite decide_False by lia.
    simpl. f_equal. lia.
Qed.

(** Any number of consecutive accepted submissions to a multiplayer game. *)
Lemma submit_all_multiplayer gameId inputs :
  ∀ games game games',
    games !! gameId = Some game →
    mode game = multiplayer →
    currentPlayerIndex game < length (players game) →
    submit_all wordList games gameId inputs = Some games' →
    ∃ game',
      games' !! gameId = Some game'
      ∧ mode game' = multiplayer
      ∧ length (players game') = length (players game)
      ∧ currentPlayerIndex game'
        = (currentPlayerIndex game + length inputs) mod length (players game)
      ∧ currentRow game'
        = (currentRow game
           + Z.of_nat ((currentPlayerIndex game + length inputs)
                       / length (players game)))%Z.
Proof.
  induction inputs as [|[guess playerId] inputs IH];
    intros games game games' Hgame Hmode Hidx Hall; simpl in Hall.
  - injection Hall as <-. exists game. split_and!; try done.
    + rewrite Nat.add_0_r. by rewrite Nat.mod_small.
    + simpl. rewrite Nat.add_0_r. rewrite Nat.div_small by done. lia.
  - destruct (submitGuess wordList games gameId guess playerId)
      as [[e|res] games1] eqn:Hcall; [done|].
    destruct (submitGuess_returns _ _ _ _ _ _ Hcall)
      as (game0 & scoredGuess & game1 & currentPlayer & Hgame0 & _ & _ & _ & _ & _
          & Hscore & _ & _ & ->).
    rewrite Hgame in Hgame0. injection Hgame0 as <-.
    destruct (score_step_frame _ _ _ _ Hscore)
      as (_ & Hmode1 & Hplayers1 & Hidx1 & Hrow1 & _).
    assert (Hmp1 : mode game1 = multiplayer) by congruence.
    destruct (record_guess_frame (normalize guess) scoredGuess currentPlayer game1)
      as (_ & Hmode2 & _ & _ & _ & _ & Hlen2).
    destruct (record_guess_multiplayer (normalize guess) scoredGuess currentPlayer
                game1 Hmp1) as [Hidx2 Hrow2].
    set (game2 := record_guess (normalize guess) scoredGuess currentPlayer game1) in *.
    rewrite Hplayers1 in Hlen2, Hidx2. rewrite Hidx1 in Hidx2. rewrite Hrow1 in Hrow2.
    assert (Hn : 0 < length (players game)) by lia.
    destruct (IH (<[gameId := game2]> games) game2 games') as (game' & Hg' & Hm' & Hl' & Hi' & Hr');
      [apply lookup_insert_eq | congruence | | done | ].
    { rewrite Hlen2, Hidx2. apply Nat.mod_upper_bound. lia. }
    exists game'. split_and!; [done | done | congruence | |].
    + rewrite Hi', Hlen2, Hidx2. simpl. apply turn_step_mod.
    + rewrite Hr', Hrow2, Hlen2, Hidx2. simpl length.
      rewrite <- (turn_step_div (currentPlayerIndex game) (length inputs)
                    (length (players game)) Hidx).
      rewrite Nat2Z.inj_add.
      generalize (((currentPlayerIndex game + 1) mod length (players game)
                   + length inputs) / length (players game)).
      intros q. clear. repeat case_decide; simpl; lia.
Qed.

(** C7.  In a multiplayer game with N players (N at least 1), N consecutive
    accepted guess submissions bring [currentPlayerIndex] back to the value
    it had and add exactly 1 to the round counter [currentRow]. *)
Theorem multiplayer_turn_cycle games gameId game inputs games' :
  games !! gameId = Some game →
  mode game = multiplayer →
  players game ≠ [] →
  length inputs = length (players game) →
  submit_all wordList games gameId inputs = Some games' →
  ∃ game',
    games' !! gameId = Some game'
    ∧ currentPlayerIndex game' = currentPlayerIndex game
    ∧ currentRow game' = (currentRow game + 1)%Z.
Proof.
  intros Hgame Hmode Hplayers Hlen Hall.
  assert (Hn : 0 < length (players game)) by (destruct (players game); simpl; [done | lia]).
  assert (Hidx : currentPlayerIndex game < length (players game)).
  { destruct inputs as [|[guess playerId] inputs]; simpl in *; [lia|].
    destruct (submitGuess wordList games gameId guess playerId)
      as [[e|res] games1] eqn:Hcall; [done|].
    destruct (submitGuess_returns _ _ _ _ _ _ Hcall)
      as (game0 & scoredGuess & game1 & currentPlayer & Hgame0 & _ & _ & _ & _ & _
          & Hscore & Hcurrent & _).
    rewrite Hgame in Hgame0. injection Hgame0 as <-.
    destruct (score_step_frame _ _ _ _ Hscore) as (_ & _ & Hplayers1 & Hidx1 & _).
    apply lookup_lt_Some in Hcurrent. congruence. }
  destruct (submit_all_multiplayer gameId inputs games game games' Hgame Hmode Hidx Hall)
    as (game' & Hg' & _ & _ & Hi' & Hr').
  exists game'. split; [done|]. rewrite Hi', Hr', Hlen. split.
  - replace (currentPlayerIndex game + length (players game))
      with (currentPlayerIndex game + 1 * length (players game)) by lia.
    rewrite Nat.Div0.mod_add. by apply Nat.mod_small.
  - replace (currentPlayerIndex game + length (players game))
      with (currentPlayerIndex game + 1 * length (players game)) by lia.
    rewrite Nat.div_add by lia. rewrite Nat.div_small by done. lia.
Qed.

(** A correct guess by the first of two players: the player is flagged, the
    turn passes to the second player and the game stays in play. *)
Lemma record_guess_first_of_two scoredGuess p1 p2 game :
  mode game = multiplayer → players game = [p1; p2] →
  currentPlayerIndex game = 0 → gameStatus game = playing →
  let game' := record_guess (answer game) scoredGuess p1 game in
  players game' = [set_isWinner true (push_guess scoredGuess p1); p2]
  ∧ currentPlayerIndex game' = 1
  ∧ gameStatus game' = playing
  ∧ mode game' = multiplayer
  ∧ answer game' = answer game.
Proof.
  intros Hmode Hplayers Hidx Hstatus.
  unfold record_guess, advance, is_win. simpl.
  rewrite Hmode, Hplayers, Hidx. simpl.
  rewrite bool_decide_eq_true_2 by done. simpl.
  rewrite decide_False by (intros [? | ?]; done). simpl. done.
Qed.

(** A correct guess by the second player closes the round: the game is won,
    every flagged player is a winner, and [winnerId] is the id of the first
    of them. *)
Lemma record_guess_second_of_two scoredGuess q1 p2 game :
  mode game = multiplayer → players game = [q1; p2] →
  currentPlayerIndex game = 1 → isWinner q1 = true →
  let game' := record_guess (answer game) scoredGuess p2 game in
  gameStatus game' = won
  ∧ winners game' = [q1; set_isWinner true (push_guess scoredGuess p2)]
  ∧ winnerId game' = Some (player_id q1).
Proof.
  intros Hmode Hplayers Hidx Hwinner.
  unfold record_guess, advance, is_win, winners. simpl.
  rewrite Hmode, Hplayers, Hidx. simpl.
  rewrite bool_decide_eq_true_2 by done. simpl.
  rewrite !filter_cons, filter_nil. simpl.
  rewrite (decide_True (P := isWinner q1 = true)) by done.
  simpl. split_and!; [done | | done].
  by rewrite filter_cons, decide_True.
Qed.

(** C6, as the code has it.  In a multiplayer game of two players, when both
    submit the answer in the same round, the round ends with the game won
    and both players winners (the players flagged [isWinner], in player
    order); the winner ids the session records are the single [winnerId],
    the id of the first player (the specification has both ids recorded). *)
Theorem multiplayer_tie games gameId game p1 p2
    guess1 playerId1 res1 games1 guess2 playerId2 res2 games2 :
  games !! gameId = Some game →
  mode game = multiplayer →
  players game = [p1; p2] →
  currentPlayerIndex game = 0 →
  normalize guess1 = answer game →
  normalize guess2 = answer game →
  submitGuess wordList games gameId guess1 playerId1 = (inr res1, games1) →
  submitGuess wordList games1 gameId guess2 playerId2 = (inr res2, games2) →
  ∃ game2,
    games2 !! gameId = Some game2
    ∧ gameStatus game2 = won
    ∧ map player_id (winners game2) = [player_id p1; player_id p2]
    ∧ winnerIds game2 = [player_id p1].
Proof.
  intros Hgame Hmode Hplayers Hidx Hguess1 Hguess2 Hcall1 Hcall2.
  destruct (submitGuess_returns _ _ _ _ _ _ Hcall1)
    as (game0 & scored1 & game1 & current1 & Hgame0 & Hstatus & _ & _ & _ & _
        & Hscore1 & Hcurrent1 & _ & ->).
  rewrite Hgame in Hgame0. injection Hgame0 as <-.
  assert (Hfixed : ¬ (mode game = absurdle ∧ answer game = ""%string))
    by (intros [? _]; congruence).
  destruct (score_step_fixed _ _ _ _ Hfixed Hscore1) as [-> _].
  rewrite Hplayers, Hidx in Hcurrent1. injection Hcurrent1 as <-.
  rewrite Hguess1 in Hcall2.
  destruct (record_guess_first_of_two scored1 p1 p2 game Hmode Hplayers Hidx Hstatus)
    as (Hplayers' & Hidx' & _ & Hmode' & Hanswer').
  set (game' := record_guess (answer game) scored1 p1 game) in *.
  destruct (submitGuess_returns _ _ _ _ _ _ Hcall2)
    as (game0 & scored2 & game1 & current2 & Hgame0 & _ & _ & _ & _ & _
        & Hscore2 & Hcurrent2 & _ & ->).
  rewrite lookup_insert_eq in Hgame0. injection Hgame0 as <-.
  assert (Hfixed' : ¬ (mode game' = absurdle ∧ answer game' = ""%string))
    by (intros [? _]; congruence).
  destruct (score_step_fixed _ _ _ _ Hfixed' Hscore2) as [-> _].
  rewrite Hplayers', Hidx' in Hcurrent2. injection Hcurrent2 as <-.
  rewrite Hguess2, <- Hanswer'.
  destruct (record_guess_second_of_two scored2
              (set_isWinner true (push_guess scored1 p1)) p2 game'
              Hmode' Hplayers' Hidx' eq_refl) as (Hwon & Hwinners & Hid).
  eexists. split; [apply lookup_insert_eq|].
  unfold winnerIds. rewrite Hwon, Hwinners, Hid. done.
Qed.

(** C8.  A guess submission that fails for a reason of the request -- unknown
    game id, game not in play, empty guess, wrong length, characters other
    than letters, word not in the dictionary, or wrong player in a
    multiplayer game -- leaves the store exactly as it was: no guess is
    appended, and the turn, round, status, answer and candidate pool of every
    game keep their values. *)
Theorem submitGuess_failure_keeps_store games gameId guess playerId e games' :
  submitGuess wordList games gameId guess playerId = (inl e, games') →
  request_failure e →
  games' = games.
Proof.
  intros Hcall Hkind.
  destruct (submitGuess_throws _ _ _ _ _ _ Hcall) as [-> | [-> _]]; [done|].
  destruct Hkind.
Qed.

End ServiceProperties.

Lemma submitGuess_failure_keeps_store_witness :
  (submitGuess Sample.words Sample.store "g1" "crane" (Some "p2"%string)).2
  = Sample.store.
Proof.
  apply (submitGuess_failure_keeps_store Sample.words Sample.store "g1" "crane"
           (Some "p2"%string) (NotYourTurn "Alice")).
  - vm_compute. reflexivity.
  - exact I.
Defined.

(** Each failure of the request is reported by its own exception. *)
Lemma submitGuess_failures :
  submitGuess Sample.words Sample.store "g9" "crane" None
  = (inl GameNotFound, Sample.store)
  ∧ submitGuess Sample.words Sample.store "g4" "crane" None
    = (inl NotPlaying, Sample.store)
  ∧ submitGuess Sample.words Sample.store "g1" "cranes" None
    = (inl (WrongLength 5), Sample.store)
  ∧ submitGuess Sample.words Sample.store "g1" "cr4ne" None
    = (inl NotLetters, Sample.store)
  ∧ submitGuess Sample.words Sample.store "g1" "crank" None
    = (inl NotValidWord, Sample.store)
  ∧ submitGuess Sample.words Sample.store "g1" "crane" (Some "p2"%string)
    = (inl (NotYourTurn "Alice"), Sample.store).
Proof. split_and!; vm_compute; reflexivity. Qed.

(** ** Revealing the answer *)

(** C9.  [getGameAnswer] returns [null] for an unknown game id and while the
    game is in play.  For a game that is won or lost it returns the answer;
    in absurdle mode with no answer selected it returns the only candidate
    left when the candidate list has exactly one word, and [null] in every
    other case. *)
Theorem getGameAnswer_cases (games : Games) (gameId : string) :
  (games !! gameId = None → getGameAnswer games gameId = None)
  ∧ ∀ game, games !! gameId = Some game →
      (gameStatus game = playing → getGameAnswer games gameId = None)
      ∧ (gameStatus game ≠ playing →
           (mode game ≠ absurdle ∨ answer game ≠ ""%string →
              getGameAnswer games gameId = Some (answer game))
           ∧ (mode game = absurdle → answer game = ""%string →
                (∀ w, candidateWords game = Some [w] →
                      getGameAnswer games gameId = Some w)
                ∧ ((∀ w, candidateWords game ≠ Some [w]) →
                      getGameAnswer games gameId = None))).
Proof.
  unfold getGameAnswer. split; [by intros ->|].
  intros game ->. split; [intros ->; done|].
  intros Hover. rewrite decide_False by done. split.
  - intros [Hmode | Hanswer].
    + by rewrite decide_False.
    + case_decide; [by rewrite decide_True | done].
  - intros Hmode Hanswer. rewrite decide_True, decide_False by (try done; auto).
    split.
    + by intros w ->.
    + intros Hnone. destruct (candidateWords game) as [[|w [|w' ws]]|]; try done.
      by destruct (Hnone w).
Qed.

Lemma getGameAnswer_cases_witness :
  getGameAnswer Sample.store "g9" = None
  ∧ getGameAnswer Sample.store "g1" = None
  ∧ getGameAnswer Sample.store "g4" = Some "APPLE"%string
  ∧ getGameAnswer Sample.store "g3" = Some "SLATE"%string.
Proof.
  split_and!.
  - exact (proj1 (getGameAnswer_cases Sample.store "g9") eq_refl).
  - destruct (proj2 (getGameAnswer_cases Sample.store "g1") Sample.duel eq_refl)
      as [Hplaying _].
    exact (Hplaying eq_refl).
  - destruct (proj2 (getGameAnswer_cases Sample.store "g4") Sample.solved eq_refl)
      as [_ Hover].
    destruct Hover as [Hanswer _]; [done|].
    apply Hanswer. by left.
  - destruct (proj2 (getGameAnswer_cases Sample.store "g3") Sample.cornered eq_refl)
      as [_ Hover].
    destruct Hover as [_ Hpool]; [done|].
    destruct (Hpool eq_refl eq_refl) as [Hone _].
    exact (Hone "SLATE"%string eq_refl).
Defined.

(** ** The properties on the sample sessions *)

(** Two accepted guesses in the two-player game: the turn is back at the
    first player and one round is counted. *)
Lemma multiplayer_turn_cycle_witness :
  ∃ game',
    default ∅ (submit_all Sample.words Sample.store "g1"
                 [("slate", Some "p1"); ("apple", None)]%string) !! "g1"%string
    = Some game'
    ∧ currentPlayerIndex game' = 0
    ∧ currentRow game' = 1%Z.
Proof.
  apply (multiplayer_turn_cycle Sample.words Sample.store "g1" Sample.duel
           [("slate", Some "p1"); ("apple", None)]%string).
  - reflexivity.
  - reflexivity.
  - done.
  - reflexivity.
  - vm_compute. reflexivity.
Defined.

(** The first guess CRANE in the absurdle game: every candidate would give
    some feedback, APPLE gives the least and is selected. *)
Lemma submitGuess_absurdle_resolution_witness :
  ∃ game',
    (submitGuess Sample.words Sample.store "g2" "crane" None).2 !! "g2"%string
    = Some game'
    ∧ answer game' = "APPLE"%string
    ∧ candidateWords game' = Some ["APPLE"%string].
Proof.
  destruct (submitGuess Sample.words Sample.store "g2" "crane" None)
    as [[e|res] games'] eqn:Hcall.
  - vm_compute in Hcall. discriminate.
  - destruct (submitGuess_absurdle_resolution Sample.words Sample.store "g2" "crane"
                None res games' Sample.hunt eq_refl eq_refl Hcall)
      as (game' & Hgame' & _ & Hunresolved).
    exists game'. split; [exact Hgame'|].
    destruct (Hunresolved eq_refl) as (pool & r & Hpool & Hsel & Hkept & _ & Hsome & _).
    injection Hpool as <-.
    vm_compute in Hsel. injection Hsel as <-.
    split; [apply (Hsome "APPLE"%string eq_refl) | exact Hkept].
Defined.

(** C3, counterexample to the specification's statement: after the guess CRANE the
    absurdle game is still in play, its answer is selected (APPLE) and its
    candidate list is not cleared: it holds APPLE.  Both "answer resolved"
    and "candidate list non-empty" hold. *)
Lemma submitGuess_resolution_keeps_pool :
  ∃ res games' game',
    submitGuess Sample.words Sample.store "g2" "crane" None = (inr res, games')
    ∧ games' !! "g2"%string = Some game'
    ∧ gameStatus game' = playing
    ∧ answer game' = "APPLE"%string
    ∧ answer game' ≠ ""%string
    ∧ candidateWords game' = Some ["APPLE"%string]
    ∧ candidateWords game' ≠ Some []
    ∧ candidateWords game' ≠ None.
Proof.
  eexists _, _, _. split; [vm_compute; reflexivity|].
  split; [vm_compute; reflexivity|].
  split_and!; done.
Qed.

(** Both players of the sample game guess the answer CRANE in the first
    round. *)
Lemma multiplayer_tie_witness :
  ∃ game2,
    (submitGuess Sample.words
       (submitGuess Sample.words Sample.store "g1" "crane" (Some "p1"%string)).2
       "g1" " Crane " (Some "p2"%string)).2 !! "g1"%string = Some game2
    ∧ gameStatus game2 = won
    ∧ map player_id (winners game2) = ["p1"; "p2"]%string
    ∧ winnerIds game2 = ["p1"%string].
Proof.
  destruct (submitGuess Sample.words Sample.store "g1" "crane" (Some "p1"%string))
    as [[e1|res1] games1] eqn:Hcall1; [vm_compute in Hcall1; discriminate|].
  simpl.
  destruct (submitGuess Sample.words games1 "g1" " Crane " (Some "p2"%string))
    as [[e2|res2] games2] eqn:Hcall2.
  - vm_compute in Hcall1. injection Hcall1 as <- <-.
    vm_compute in Hcall2. discriminate.
  - apply (multiplayer_tie Sample.words Sample.store "g1" Sample.duel
             Sample.alice Sample.bob
             "crane" (Some "p1"%string) res1 games1
             " Crane " (Some "p2"%string) res2 games2);
      first [ reflexivity | assumption ].
Defined.

(** C6, counterexample to the specification's statement: after both players of the
    sample game have guessed the answer, the game is won and the session and
    the state returned to the client record the single winner id p1; the id
    p2 of the second winner is not recorded. *)
Lemma multiplayer_tie_single_winnerId :
  ∃ res1 games1 res2 games2 game2,
    submitGuess Sample.words Sample.store "g1" "crane" (Some "p1"%string)
    = (inr res1, games1)
    ∧ submitGuess Sample.words games1 "g1" "crane" (Some "p2"%string)
      = (inr res2, games2)
    ∧ games2 !! "g1"%string = Some game2
    ∧ gameStatus game2 = won
    ∧ winnerId game2 = Some "p1"%string
    ∧ c_winnerId res2.1 = Some "p1"%string
    ∧ winnerIds game2 = ["p1"%string]
    ∧ length (winnerIds game2) ≠ 2
    ∧ "p2"%string ∉ winnerIds game2.
Proof.
  eexists _, _, _, _, _. split; [vm_compute; reflexivity|].
  split; [vm_compute; reflexivity|].
  split; [vm_compute; reflexivity|].
  split_and!; try done.
  unfold winnerIds. simpl. intros Hin. by apply list_elem_of_singleton in Hin.
Qed.

(** * Further properties of the scorer *)

Lemma toUpperCase_split w :
  Js.split (Js.toUpperCase w) = map Js.upper_char (Js.split w).
Proof. unfold Js.split. induction w as [|c w IH]; simpl; [done | by rewrite IH]. Qed.

Lemma upper_char_idemp c : Js.upper_char (Js.upper_char c) = Js.upper_char c.
Proof.
  unfold Js.upper_char.
  destruct ((97 <=? nat_of_ascii c) && (nat_of_ascii c <=? 122)) eqn:E; [|by rewrite E].
  apply andb_prop in E as [E1 E2]. apply Nat.leb_le in E1, E2.
  rewrite nat_ascii_embedding by lia.
  replace (97 <=? nat_of_ascii c - 32) with false; [done|].
  symmetry. apply Nat.leb_gt. lia.
Qed.

Lemma toUpperCase_idemp w : Js.toUpperCase (Js.toUpperCase w) = Js.toUpperCase w.
Proof. induction w as [|c w IH]; simpl; [done|]. by rewrite upper_char_idemp, IH. Qed.

Lemma letters_toUpperCase w : letters (Js.toUpperCase w) = letters w.
Proof. unfold letters. by rewrite toUpperCase_idemp. Qed.

Lemma split_inj w1 w2 : Js.split w1 = Js.split w2 → w1 = w2.
Proof.
  unfold Js.split. revert w2.
  induction w1 as [|c w1 IH]; intros [|c2 w2]; simpl; try done.
  intros [= -> H]. f_equal. by apply IH.
Qed.

Lemma split_length w : length (Js.split w) = String.length w.
Proof. unfold Js.split. induction w as [|c w IH]; simpl; [done | by rewrite IH]. Qed.

Lemma toUpperCase_length w : String.length (Js.toUpperCase w) = String.length w.
Proof. induction w as [|c w IH]; simpl; [done | by rewrite IH]. Qed.

(** The first pass, position by position. *)
Lemma pass1_rec_lookup guessRest :
  ∀ answerRest cnt i,
    (pass1_rec guessRest answerRest cnt).1 !! i
    = (fun letter =>
         mkLetter letter
           (if decide (answerRest !! i = Some letter) then Hit else Empty))
      <$> guessRest !! i.
Proof.
  induction guessRest as [|letter g IH]; intros a cnt i; simpl; [done|].
  rewrite head_lookup.
  destruct i as [|i].
  - case_decide; simpl; by repeat case_decide.
  - assert (Htail : tail a !! i = a !! S i) by (by destruct a).
    case_decide; simpl; by rewrite IH, Htail.
Qed.

(** The second pass keeps the characters and the Hits, and turns every
    placeholder into Present or Miss. *)
Lemma pass2_rec_pointwise result :
  ∀ cnt,
    Forall2 (fun l l' =>
               char l' = char l
               ∧ (state l ≠ Empty → l' = l)
               ∧ (state l = Empty → state l' = Present ∨ state l' = Miss))
            result (pass2_rec result cnt).1.
Proof.
  induction result as [|l rest IH]; intros cnt; simpl; [constructor|].
  destruct l as [ch st]. simpl.
  destruct st; simpl; try (constructor; [split_and!; done | apply IH]).
  destruct (positive_count cnt ch); simpl;
    (constructor; [split_and!; auto; done | apply IH]).
Qed.

Lemma marked_total c (g : Guess) :
  marked Hit c g + marked Present c g + marked Miss c g + marked Empty c g
  = occurrences c (map char g).
Proof.
  induction g as [|[ch st] g IH]; [done|].
  simpl. rewrite !marked_cons, occurrences_cons. simpl.
  destruct st; count_cases.
Qed.

Lemma pass1_rec_no_miss c guessRest :
  ∀ answerRest cnt, marked Miss c (pass1_rec guessRest answerRest cnt).1 = 0.
Proof.
  induction guessRest as [|letter g IH]; intros a cnt; simpl; [done|].
  case_decide; simpl; rewrite marked_cons, IH; simpl; count_cases.
Qed.

Lemma pass2_rec_no_placeholder c result :
  ∀ cnt, marked Empty c (pass2_rec result cnt).1 = 0.
Proof.
  induction result as [|[ch st] rest IH]; intros cnt; simpl; [done|].
  destruct st; simpl; try (rewrite marked_cons, IH; simpl; count_cases).
  destruct (positive_count cnt ch); simpl; rewrite marked_cons, IH; simpl; count_cases.
Qed.

(** A Miss written for the letter [c] means its counter is exhausted, and it
    stays exhausted. *)
Lemma pass2_rec_miss c result :
  ∀ cnt,
    (0 ≤ remaining cnt c)%Z →
    marked Miss c (pass2_rec result cnt).1 = marked Miss c result
    ∨ remaining (pass2_rec result cnt).2 c = 0%Z.
Proof.
  induction result as [|[ch st] rest IH]; intros cnt Hge; simpl; [by left|].
  destruct st; simpl;
    try (destruct (IH cnt Hge) as [Heq | Hzero]; [left | by right];
         rewrite !marked_cons, Heq; done).
  destruct (positive_count cnt ch) eqn:Hpos; simpl.
  - apply positive_count_remaining in Hpos.
    destruct (IH (decrement ch cnt)) as [Heq | Hzero]; [| left | by right].
    { rewrite remaining_decrement by done. case_decide; subst; lia. }
    rewrite !marked_cons, Heq. simpl. count_cases.
  - destruct (decide (ch = c)) as [-> | Hne].
    + right.
      assert (Hzero : remaining cnt c = 0%Z).
      { destruct (positive_count_remaining cnt c) as [_ Hto].
        destruct (decide (0 < remaining cnt c)%Z) as [Hlt | Hnlt]; [|lia].
        rewrite Hto in Hpos by done. done. }
      destruct (pass2_rec_counts c rest cnt Hge) as (Hsum & Hge' & _).
      assert (Hmono : marked Present c rest ≤ marked Present c (pass2_rec rest cnt).1).
      { clear. revert cnt. induction rest as [|[ch st] rest IH]; intros cnt; simpl; [done|].
        destruct st; simpl; try (rewrite !marked_cons; specialize (IH cnt); simpl; lia).
        destruct (positive_count cnt ch); simpl; rewrite !marked_cons; simpl.
        - specialize (IH (decrement ch cnt)). count_cases.
        - specialize (IH cnt). count_cases. }
      lia.
    + destruct (IH cnt Hge) as [Heq | Hzero]; [left | by right].
      rewrite !marked_cons, Heq. simpl. count_cases.
Qed.

Lemma occurrences_pos c (w : list ascii) : 0 < occurrences c w ↔ c ∈ w.
Proof.
  induction w as [|x w IH].
  - unfold occurrences. simpl. split; [lia | by intros ?%elem_of_nil].
  - rewrite occurrences_cons, elem_of_cons. case_decide; subst.
    + split; [by left | simpl; lia].
    + simpl. rewrite IH. split; [by right | intros [-> | ?]; done].
Qed.

Lemma marked_pos s (g : Guess) l :
  l ∈ g → state l = s → 0 < marked s (char l) g.
Proof.
  intros Hin Hs. unfold marked.
  assert (Hf : l ∈ filter (fun l' => char l' = char l ∧ state l' = s) g)
    by (by apply list_elem_of_filter).
  destruct (filter _ g); [by apply elem_of_nil in Hf | simpl; lia].
Qed.

(** One entry of the scored guess: its character is the guess letter at that
    position, it is a Hit exactly when the answer has the same letter there,
    and it is never the placeholder. *)
Lemma scoreGuess_lookup guess answer i l :
  scoreGuess guess answer !! i = Some l →
  letters guess !! i = Some (char l)
  ∧ (state l = Hit ↔ letters answer !! i = Some (char l))
  ∧ state l ≠ Empty.
Proof.
  rewrite scoreGuess_rec. cbv zeta.
  set (cnt0 := foldl count_letter ∅ (letters answer)).
  set (r1 := pass1_rec (letters guess) (letters answer) cnt0).
  intros Hl.
  pose proof (pass2_rec_pointwise r1.1 r1.2) as Hpt.
  destruct (Forall2_lookup_r _ _ _ _ _ Hpt Hl) as (l1 & Hl1 & Hchar & Hkeep & Hfill).
  unfold r1 in Hl1. rewrite pass1_rec_lookup in Hl1.
  destruct (letters guess !! i) as [letter|] eqn:Hg; [|done].
  simpl in Hl1. injection Hl1 as <-. simpl in *.
  rewrite Hchar. split; [done|].
  case_decide as Hans.
  - rewrite Hkeep by done. simpl. split_and!; done.
  - destruct Hfill as [Hs | Hs]; [done | |]; rewrite Hs; split_and!; done.
Qed.

Lemma scoreGuess_length guess answer :
  length (scoreGuess guess answer) = length (letters guess).
Proof.
  rewrite scoreGuess_rec. cbv zeta.
  rewrite <- (length_map char), pass2_rec_chars, pass1_rec_chars. done.
Qed.

Lemma scoreGuess_chars guess answer :
  map char (scoreGuess guess answer) = letters guess.
Proof. rewrite scoreGuess_rec. cbv zeta. by rewrite pass2_rec_chars, pass1_rec_chars. Qed.

(** The marks on a letter: Hits and Presents together are exactly the
    smaller of its two occurrence counts, and a Miss on the letter means that
    all its occurrences in the answer are matched. *)
Lemma scoreGuess_marks guess answer c :
  marked Hit c (scoreGuess guess answer) + marked Present c (scoreGuess guess answer)
  = Nat.min (occurrences c (letters guess)) (occurrences c (letters answer))
  ∧ (0 < marked Miss c (scoreGuess guess answer) →
     marked Hit c (scoreGuess guess answer) + marked Present c (scoreGuess guess answer)
     = occurrences c (letters answer)).
Proof.
  pose proof (marked_total c (scoreGuess guess answer)) as Htotal.
  rewrite scoreGuess_chars in Htotal. revert Htotal.
  rewrite scoreGuess_rec. cbv zeta.
  set (cnt0 := foldl count_letter ∅ (letters answer)).
  set (r1 := pass1_rec (letters guess) (letters answer) cnt0).
  intros Htotal.
  assert (Hcnt0 : ∀ c', remaining cnt0 c' = Z.of_nat (occurrences c' (letters answer))).
  { intros c'. unfold cnt0. rewrite remaining_answer_count.
    unfold remaining. rewrite lookup_empty. simpl. lia. }
  destruct (pass1_rec_counts c (letters guess) (letters answer) cnt0)
    as (Hsum1 & Hge1 & Hpres1).
  { intros c'. rewrite Hcnt0. lia. }
  pose proof (pass1_rec_no_miss c (letters guess) (letters answer) cnt0) as Hmiss1.
  fold r1 in Hsum1, Hge1, Hpres1, Hmiss1.
  destruct (pass2_rec_counts c r1.1 r1.2 Hge1) as (Hsum2 & Hge2 & Hhit2).
  pose proof (pass2_rec_no_placeholder c r1.1 r1.2) as Hempty2.
  rewrite Hcnt0 in Hsum1.
  destruct (pass2_rec_miss c r1.1 r1.2 Hge1) as [Hmiss2 | Hzero]; lia.
Qed.

Lemma prefix_lookup_iff {A} (l1 l2 : list A) :
  l1 `prefix_of` l2 ↔ ∀ i x, l1 !! i = Some x → l2 !! i = Some x.
Proof.
  split.
  - intros [k ->] i x Hi. by apply lookup_app_l_Some.
  - revert l2. induction l1 as [|x l1 IH]; intros l2 Hall.
    + apply prefix_nil.
    + destruct l2 as [|y l2]; [by specialize (Hall 0 x eq_refl)|].
      specialize (Hall 0 x eq_refl) as Hhead. injection Hhead as ->.
      apply prefix_cons, IH. intros i z Hi. exact (Hall (S i) z Hi).
Qed.

Lemma scoreGuess_all_hit_prefix guess answer :
  Forall (fun l => state l = Hit) (scoreGuess guess answer)
  ↔ letters guess `prefix_of` letters answer.
Proof.
  rewrite prefix_lookup_iff, Forall_lookup. split.
  - intros Hall i ch Hg.
    destruct (lookup_lt_is_Some_2 (scoreGuess guess answer) i) as [l Hl].
    { rewrite scoreGuess_length. by apply lookup_lt_Some in Hg. }
    destruct (scoreGuess_lookup _ _ _ _ Hl) as (Hgl & Hhit & _).
    rewrite Hg in Hgl. injection Hgl as ->. apply Hhit. by apply (Hall i).
  - intros Hpre i l Hl.
    destruct (scoreGuess_lookup _ _ _ _ Hl) as (Hgl & Hhit & _).
    apply Hhit. by apply Hpre.
Qed.

(** X1.  Exact letter accounting: for every letter, the positions marked Hit
    or Present with that letter number exactly the smaller of the letter's
    occurrence counts in the guess and in the answer (both folded to upper
    case), whatever the lengths of the two words. *)
Theorem scoreGuess_marks_exact (guess answer : string) (c : ascii) :
  marked Hit c (scoreGuess guess answer) + marked Present c (scoreGuess guess answer)
  = Nat.min (occurrences c (letters guess)) (occurrences c (letters answer)).
Proof. apply scoreGuess_marks. Qed.

(** X2.  Position by position: the scored guess has one entry per letter of
    the guess, entry [i] carries the guess's letter [i] (upper case), and it
    is a Hit exactly when the answer has that same letter at position [i]. *)
Theorem scoreGuess_positions (guess answer : string) :
  length (scoreGuess guess answer) = String.length guess
  ∧ ∀ i l, scoreGuess guess answer !! i = Some l →
      letters guess !! i = Some (char l)
      ∧ (state l = Hit ↔ letters answer !! i = Some (char l)).
Proof.
  split.
  - rewrite scoreGuess_length. unfold letters.
    by rewrite split_length, toUpperCase_length.
  - intros i l Hl. destruct (scoreGuess_lookup _ _ _ _ Hl) as (? & ? & _). done.
Qed.

(** X3.  For words of the same length the scored guess is all Hits exactly
    when the two words are equal up to case; in particular a word scored
    against itself is all Hits. *)
Theorem scoreGuess_all_hit_iff_equal (guess answer : string) :
  String.length guess = String.length answer →
  Forall (fun l => state l = Hit) (scoreGuess guess answer)
  ↔ Js.toUpperCase guess = Js.toUpperCase answer.
Proof.
  intros Hlen. rewrite scoreGuess_all_hit_prefix. unfold letters. split.
  - intros Hpre. apply split_inj.
    apply prefix_length_eq; [done|].
    rewrite !split_length, !toUpperCase_length. lia.
  - intros ->. done.
Qed.

Lemma scoreGuess_all_hit_iff_equal_witness :
  Forall (fun l => state l = Hit) (scoreGuess "crane" "CRANE")
  ↔ Js.toUpperCase "crane" = Js.toUpperCase "CRANE".
Proof. apply (scoreGuess_all_hit_iff_equal "crane" "CRANE"). reflexivity. Defined.

(** X4.  What Present and Miss mean.  A position marked Present holds a
    letter that occurs in the answer but not at that position.  A position
    marked Miss holds a letter that the answer does not have at that
    position, and all occurrences of that letter in the answer (possibly
    none) are matched by the Hits and Presents given to that letter. *)
Theorem scoreGuess_present_miss (guess answer : string) (i : nat) (l : Letter) :
  scoreGuess guess answer !! i = Some l →
  (state l = Present →
     char l ∈ letters answer ∧ letters answer !! i ≠ Some (char l))
  ∧ (state l = Miss →
       letters answer !! i ≠ Some (char l)
       ∧ marked Hit (char l) (scoreGuess guess answer)
         + marked Present (char l) (scoreGuess guess answer)
         = occurrences (char l) (letters answer)).
Proof.
  intros Hl.
  destruct (scoreGuess_lookup _ _ _ _ Hl) as (_ & Hhit & _).
  apply list_elem_of_lookup_2 in Hl as Hin.
  destruct (scoreGuess_marks guess answer (char l)) as [Hmin Hmiss].
  split; intros Hs.
  - split; [|intros Ha; apply Hhit in Ha; congruence].
    apply occurrences_pos.
    pose proof (marked_pos Present _ _ Hin Hs). lia.
  - split; [intros Ha; apply Hhit in Ha; congruence|].
    apply Hmiss. by apply marked_pos.
Qed.

Lemma scoreGuess_present_miss_witness :
  "E"%char ∈ letters "CRANE" ∧ letters "CRANE" !! 2 ≠ Some "E"%char.
Proof.
  apply (scoreGuess_present_miss "SPEED" "CRANE" 2 (mkLetter "E" Present)).
  - vm_compute. reflexivity.
  - reflexivity.
Defined.

(** The scorer is insensitive to case: words that agree once folded to
    upper case get the same scored guess. *)
Theorem scoreGuess_case_insensitive (guess guess' answer answer' : string) :
  Js.toUpperCase guess = Js.toUpperCase guess' →
  Js.toUpperCase answer = Js.toUpperCase answer' →
  scoreGuess guess answer = scoreGuess guess' answer'.
Proof.
  intros Hg Ha. rewrite !scoreGuess_rec. unfold letters. by rewrite Hg, Ha.
Qed.

Lemma scoreGuess_case_insensitive_witness :
  scoreGuess "Speed" "crane" = scoreGuess "SPEED" "CRANE".
Proof.
  apply (scoreGuess_case_insensitive "Speed" "SPEED" "crane" "CRANE"); reflexivity.
Defined.

(** * Further properties of the helpfulness score and the selector *)

Lemma count_state_zero s (g : Guess) :
  count_state s g = 0 ↔ ∀ c, marked s c g = 0.
Proof.
  induction g as [|[ch st] g IH].
  - done.
  - rewrite count_state_cons. simpl. split.
    + intros H c. rewrite marked_cons. simpl.
      case_decide; [lia|]. destruct IH as [IH _]. rewrite IH by lia. count_cases.
    + intros H. case_decide as Hst.
      * specialize (H ch). rewrite marked_cons in H. simpl in H.
        rewrite !decide_True in H by done. lia.
      * simpl. apply IH. intros c. specialize (H c).
        rewrite marked_cons in H. lia.
Qed.

Lemma scorePattern_zero (pattern : Guess) :
  scorePattern pattern = 0
  ↔ count_state Hit pattern = 0 ∧ count_state Present pattern = 0.
Proof. rewrite scorePattern_formula. lia. Qed.

(** A guess is of no help against a candidate exactly when the two words
    have no letter in common. *)
Lemma helpfulness_zero guess candidate :
  helpfulness guess candidate = 0
  ↔ ∀ c, c ∈ letters guess → c ∉ letters candidate.
Proof.
  unfold helpfulness. rewrite scorePattern_zero, !count_state_zero. split.
  - intros [Hhit Hpres] c Hg Hc.
    destruct (scoreGuess_marks (Js.toUpperCase guess) candidate c) as [Hmin _].
    rewrite Hhit, Hpres, letters_toUpperCase in Hmin.
    apply occurrences_pos in Hg, Hc. lia.
  - intros Hdisj.
    assert (Hsum : ∀ c,
      marked Hit c (scoreGuess (Js.toUpperCase guess) candidate)
      + marked Present c (scoreGuess (Js.toUpperCase guess) candidate) = 0).
    { intros c.
      destruct (scoreGuess_marks (Js.toUpperCase guess) candidate c) as [-> _].
      rewrite letters_toUpperCase.
      destruct (decide (c ∈ letters guess)) as [Hg | Hg].
      - specialize (Hdisj c Hg). rewrite <- occurrences_pos in Hdisj. lia.
      - rewrite <- occurrences_pos in Hg. lia. }
    split; intros c; specialize (Hsum c); lia.
Qed.

(** X5.  The helpfulness of a guess against a candidate is 0 exactly when no
    letter of the guess occurs in the candidate (letters compared in upper
    case). *)
Theorem helpfulness_zero_iff_disjoint (guess candidate : string) :
  helpfulness guess candidate = 0
  ↔ ∀ c, c ∈ letters guess → c ∉ letters candidate.
Proof. apply helpfulness_zero. Qed.

(** The helpfulness of a pattern is at most 6 per position, and it
    reaches 6 per position exactly for the pattern of all Hits. *)
Theorem scorePattern_bound (pattern : Guess) :
  scorePattern pattern ≤ 6 * length pattern
  ∧ (scorePattern pattern = 6 * length pattern
     ↔ Forall (fun l => state l = Hit) pattern).
Proof.
  rewrite scorePattern_formula.
  induction pattern as [|[ch st] g [IHle IHeq]]; simpl.
  - split; [done|]. split; [constructor | done].
  - rewrite !count_state_cons. simpl. rewrite Forall_cons. simpl.
    destruct st; simpl; split; try lia; split;
      try (intros [? ?]; done); try lia.
    + intros H. split; [done|]. apply IHeq. lia.
    + intros [_ H]. apply IHeq in H. lia.
Qed.

(** X6.  The selector throws exactly on the empty pool, and the exception is
    "No valid patterns found". *)
Theorem absurdleScoreGuess_throws_iff_empty (guess : string) (pool : list string) :
  ((∃ e, absurdleScoreGuess guess pool = inl e) ↔ pool = [])
  ∧ ∀ e, absurdleScoreGuess guess pool = inl e → e = NoValidPatterns.
Proof.
  destruct pool as [|w ws].
  - split; [|by intros e [= <-]].
    split; [done | by exists NoValidPatterns].
  - destruct (absurdleScoreGuess_minimalSet guess (w :: ws)) as (f & r & _ & Heq);
      [done|].
    rewrite Heq. split; [|done]. split; [intros [e ?]; done | done].
Qed.

Lemma scoreGuess_toUpperCase_l guess answer :
  scoreGuess (Js.toUpperCase guess) answer = scoreGuess guess answer.
Proof. rewrite !scoreGuess_rec. by rewrite letters_toUpperCase. Qed.

(** X7.  On a non-empty pool the selector keeps exactly the candidates of
    least helpfulness, in pool order.  It selects no answer exactly when
    that least helpfulness is 0 and more than one candidate attains it;
    otherwise the selected answer is the first kept candidate, and the
    pattern returned is the real score of the guess against it. *)
Theorem absurdleScoreGuess_keeps_minimal (guess : string) (pool : list string) :
  pool ≠ [] →
  ∃ r first rest,
    absurdleScoreGuess guess pool = inr r
    ∧ minimalSet guess pool = first :: rest
    ∧ remainingWords r = first :: rest
    ∧ (selectedAnswer r = None
       ↔ helpfulness guess first = 0 ∧ rest ≠ [])
    ∧ (selectedAnswer r ≠ None →
       selectedAnswer r = Some first
       ∧ finalPattern r = scoreGuess guess first).
Proof.
  intros Hne.
  destruct (absurdleScoreGuess_minimalSet guess pool Hne)
    as (first & rest & Hms & Hres).
  eexists _, first, rest. split; [exact Hres|]. split; [done|].
  case_decide as Hc; simpl.
  - split_and!; done.
  - split_and!; [done | | ].
    + split; [done | intros ?; done].
    + intros _. split; [done|].
      apply scoreGuess_toUpperCase_l.
Qed.

Lemma absurdleScoreGuess_keeps_minimal_witness :
  ∃ r first rest,
    absurdleScoreGuess "crane" Sample.words = inr r
    ∧ minimalSet "crane" Sample.words = first :: rest
    ∧ remainingWords r = first :: rest
    ∧ (selectedAnswer r = None
       ↔ helpfulness "crane" first = 0 ∧ rest ≠ [])
    ∧ (selectedAnswer r ≠ None →
       selectedAnswer r = Some first
       ∧ finalPattern r = scoreGuess "crane" first).
Proof. apply (absurdleScoreGuess_keeps_minimal "crane" Sample.words). done. Defined.

(** X8.  When the selector returns no answer, more than one word is kept,
    no kept word contains any letter of the guess, and the pattern has one
    placeholder entry per letter of the guess. *)
Theorem absurdleScoreGuess_withheld (guess : string) (pool : list string)
    (r : AbsurdleResult) :
  absurdleScoreGuess guess pool = inr r →
  selectedAnswer r = None →
  1 < length (remainingWords r)
  ∧ (∀ w c, w ∈ remainingWords r → c ∈ letters guess → c ∉ letters w)
  ∧ finalPattern r = map (fun c => mkLetter c Empty) (letters guess).
Proof.
  intros Hres Hnone.
  destruct pool as [|w0 ws]; [done|].
  destruct (absurdleScoreGuess_minimalSet guess (w0 :: ws))
    as (first & rest & Hms & Heq); [done|].
  rewrite Hres in Heq. injection Heq as ->.
  case_decide as Hc; simpl in *; [|done].
  destruct Hc as [Hzero Hrest].
  split; [destruct rest; simpl; [done | lia]|]. split; [|done].
  intros w c Hw. apply helpfulness_zero.
  rewrite <- Hzero. apply minimalSet_helpfulness with (w0 :: ws); rewrite Hms; [done | left].
Qed.

Lemma absurdleScoreGuess_withheld_witness :
  1 < length ["AB"; "CD"]%string
  ∧ (∀ w c, w ∈ ["AB"; "CD"]%string → c ∈ letters "xy" → c ∉ letters w)
  ∧ [mkLetter "X" Empty; mkLetter "Y" Empty]
    = map (fun c => mkLetter c Empty) (letters "xy").
Proof.
  apply (absurdleScoreGuess_withheld "xy" ["AB"; "CD"; "XA"]%string
           (mkAbsurdleResult [mkLetter "X" Empty; mkLetter "Y" Empty]
              ["AB"; "CD"]%string None)).
  - vm_compute. reflexivity.
  - reflexivity.
Defined.

Lemma filter_all {A} (P : A → Prop) `{!∀ x, Decision (P x)} (l : list A) :
  (∀ x, x ∈ l → P x) → filter P l = l.
Proof.
  induction l as [|x l IH]; intros Hall; [done|].
  rewrite filter_cons, decide_True by (apply Hall; left).
  f_equal. apply IH. intros y Hy. apply Hall. by right.
Qed.

Lemma minimalSet_idemp guess pool :
  minimalSet guess (minimalSet guess pool) = minimalSet guess pool.
Proof.
  unfold minimalSet at 1. apply filter_all. intros w Hw.
  unfold attains_min. apply Forall_forall. intros w' Hw'.
  by rewrite (minimalSet_helpfulness guess pool w w').
Qed.

(** X9.  Guessing the same word again does not narrow the pool further:
    on the words it kept, the selector keeps every word. *)
Theorem absurdleScoreGuess_idempotent (guess : string) (pool : list string)
    (r : AbsurdleResult) :
  absurdleScoreGuess guess pool = inr r →
  ∃ r', absurdleScoreGuess guess (remainingWords r) = inr r'
        ∧ remainingWords r' = remainingWords r
        ∧ selectedAnswer r' = selectedAnswer r
        ∧ finalPattern r' = finalPattern r.
Proof.
  intros Hres.
  destruct pool as [|w0 ws]; [done|].
  destruct (absurdleScoreGuess_minimalSet guess (w0 :: ws))
    as (first & rest & Hms & Heq); [done|].
  rewrite Hres in Heq. injection Heq as ->.
  assert (Hkept : remainingWords
            (if decide (helpfulness guess first = 0 ∧ rest ≠ [])
             then mkAbsurdleResult (map (fun char => mkLetter char Empty) (letters guess))
                    (first :: rest) None
             else mkAbsurdleResult (scoreGuess (Js.toUpperCase guess) first)
                    (first :: rest) (Some first)) = first :: rest)
    by (by case_decide).
  rewrite Hkept.
  destruct (absurdleScoreGuess_minimalSet guess (first :: rest))
    as (first' & rest' & Hms' & Heq'); [done|].
  rewrite <- Hms, minimalSet_idemp, Hms in Hms'. injection Hms' as <- <-.
  eexists. split; [exact Heq'|]. by case_decide.
Qed.

Lemma absurdleScoreGuess_idempotent_witness :
  ∃ r', absurdleScoreGuess "xy" ["AB"; "CD"]%string = inr r'
        ∧ remainingWords r' = ["AB"; "CD"]%string
        ∧ selectedAnswer r' = None
        ∧ finalPattern r' = [mkLetter "X" Empty; mkLetter "Y" Empty].
Proof.
  apply (absurdleScoreGuess_idempotent "xy" ["AB"; "CD"; "XA"]%string
           (mkAbsurdleResult [mkLetter "X" Empty; mkLetter "Y" Empty]
              ["AB"; "CD"]%string None)).
  vm_compute. reflexivity.
Defined.

(** * Further properties of guess submission *)

Section SubmissionProperties.

Variable wordList : list string.

(** Whatever the outcome, the store after a call is the store before it,
    or that store with the game of the call replaced by a game with the same
    fixed fields. *)
Lemma submitGuess_store games gameId guess playerId out games' :
  submitGuess wordList games gameId guess playerId = (out, games') →
  games' = games
  ∨ ∃ game game',
      games !! gameId = Some game
      ∧ gameStatus game = playing
      ∧ games' = <[gameId := game']> games
      ∧ game_id game' = game_id game
      ∧ mode game' = mode game
      ∧ maxRounds game' = maxRounds game
      ∧ wordLength game' = wordLength game
      ∧ length (players game') = length (players game).
Proof.
  intros Hcall. destruct out as [e|res].
  - destruct (submitGuess_throws _ _ _ _ _ _ _ Hcall)
      as [-> | (-> & game & sg & game1 & Hgame & Hscore & _ & ->)]; [by left|].
    right. exists game, game1.
    destruct (score_step_frame _ _ _ _ Hscore)
      as (Hid & Hmode & Hplayers & _ & _ & Hstatus & _ & Hmax & Hlen).
    assert (Hplaying : gameStatus game = playing).
    { unfold submitGuess in Hcall. rewrite Hgame in Hcall.
      case_decide as Hs; [discriminate Hcall|].
      by destruct (gameStatus game). }
    split_and!; try done. by rewrite Hplayers.
  - destruct (submitGuess_returns _ _ _ _ _ _ _ Hcall)
      as (game & sg & game1 & p & Hgame & Hplaying & _ & _ & _ & _ & Hscore & _ & _ & ->).
    right. exists game, (record_guess (normalize guess) sg p game1).
    destruct (score_step_frame _ _ _ _ Hscore)
      as (Hid & Hmode & Hplayers & _ & _ & _ & _ & Hmax & Hlen).
    destruct (record_guess_frame (normalize guess) sg p game1)
      as (Hid' & Hmode' & _ & _ & Hmax' & Hlen' & Hn').
    split_and!; try done; congruence.
Qed.

(** X10.  A guess submission touches no other session: every game stored
    under another id is left as it was, and the call neither adds nor
    removes a game, whatever its outcome. *)
Theorem submitGuess_other_games games gameId guess playerId other :
  other ≠ gameId →
  (submitGuess wordList games gameId guess playerId).2 !! other = games !! other
  ∧ dom (submitGuess wordList games gameId guess playerId).2 = dom games.
Proof.
  intros Hother.
  destruct (submitGuess wordList games gameId guess playerId) as [out games'] eqn:Hcall.
  simpl.
  destruct (submitGuess_store _ _ _ _ _ _ Hcall)
    as [-> | (game & game' & Hgame & _ & -> & _)]; [done|].
  split; [by rewrite lookup_insert_ne|].
  by apply dom_insert_lookup_L.
Qed.

(** X11.  A finished game is final: once the status of a game is won or
    lost, no guess submission, to any game id and with any outcome, changes
    anything in it. *)
Theorem finished_game_is_final games gameId game callId guess playerId :
  games !! gameId = Some game →
  gameStatus game ≠ playing →
  (submitGuess wordList games callId guess playerId).2 !! gameId = Some game.
Proof.
  intros Hgame Hover.
  destruct (submitGuess wordList games callId guess playerId) as [out games'] eqn:Hcall.
  simpl.
  destruct (submitGuess_store _ _ _ _ _ _ Hcall)
    as [-> | (game0 & game' & Hgame0 & Hplaying & -> & _)]; [done|].
  destruct (decide (callId = gameId)) as [-> | Hne].
  - rewrite Hgame in Hgame0. injection Hgame0 as <-. done.
  - by rewrite lookup_insert_ne.
Qed.

(** The configuration of a game never changes: after any guess
    submission the game still has its id, mode, number of rounds, word
    length and number of players. *)
Theorem submitGuess_keeps_configuration games gameId game guess playerId :
  games !! gameId = Some game →
  ∃ game',
    (submitGuess wordList games gameId guess playerId).2 !! gameId = Some game'
    ∧ game_id game' = game_id game
    ∧ mode game' = mode game
    ∧ maxRounds game' = maxRounds game
    ∧ wordLength game' = wordLength game
    ∧ length (players game') = length (players game).
Proof.
  intros Hgame.
  destruct (submitGuess wordList games gameId guess playerId) as [out games'] eqn:Hcall.
  simpl.
  destruct (submitGuess_store _ _ _ _ _ _ Hcall)
    as [-> | (game0 & game' & Hgame0 & _ & -> & Hfix)]; [by exists game|].
  rewrite Hgame in Hgame0. injection Hgame0 as <-.
  exists game'. split; [apply lookup_insert_eq | done].
Qed.

Lemma only_letters_nonempty w : only_letters w = true → w ≠ ""%string.
Proof. by intros H ->. Qed.

Lemma is_win_eq normalizedGuess game :
  normalizedGuess ≠ ""%string →
  is_win normalizedGuess game = bool_decide (normalizedGuess = answer game).
Proof.
  intros Hne. unfold is_win. case_decide; [|done].
  destruct (bool_decide_reflect (normalizedGuess = answer game)) as [Heq | Hneq].
  - rewrite andb_true_r. apply bool_decide_eq_true. congruence.
  - apply andb_false_r.
Qed.

Lemma record_guess_players normalizedGuess scoredGuess p game :
  players game !! currentPlayerIndex game = Some p →
  players (record_guess normalizedGuess scoredGuess p game)
  = <[currentPlayerIndex game := guessed scoredGuess (is_win normalizedGuess game) p]>
      (players game).
Proof.
  intros Hp. unfold record_guess, advance, guessed. simpl.
  assert (Hplayer :
    (if is_win normalizedGuess game
     then set_isWinner true (push_guess scoredGuess p) else push_guess scoredGuess p)
    = mkPlayer (player_id p) (player_name p) (guesses p ++ [scoredGuess])
               (isWinner p || is_win normalizedGuess game)).
  { destruct (is_win normalizedGuess game); unfold set_isWinner, push_guess; simpl.
    - by rewrite orb_true_r.
    - by rewrite orb_false_r. }
  rewrite Hplayer.
  repeat case_decide; repeat case_match; simpl; done.
Qed.

(** Single-player and absurdle games: a winning guess ends the game at once,
    any other guess uses up a round. *)
Lemma record_guess_single normalizedGuess scoredGuess p game :
  mode game ≠ multiplayer →
  let game' := record_guess normalizedGuess scoredGuess p game in
  currentPlayerIndex game' = currentPlayerIndex game
  ∧ (is_win normalizedGuess game = true →
       gameStatus game' = won
       ∧ winnerId game' = Some (player_id p)
       ∧ currentRow game' = currentRow game)
  ∧ (is_win normalizedGuess game = false →
       currentRow game' = (currentRow game + 1)%Z
       ∧ winnerId game' = winnerId game
       ∧ gameStatus game'
         = if decide (currentRow game + 1 >= maxRounds game)%Z
           then lost else gameStatus game).
Proof.
  intros Hmode. unfold record_guess, advance. simpl.
  rewrite decide_False by done.
  destruct (is_win normalizedGuess game); simpl.
  - split_and!; done.
  - split; [by case_decide|]. split; [done|].
    intros _. case_decide; simpl; split_and!; done.
Qed.

(** Multiplayer games: the turn passes on; the game is decided only when the
    turn is back at the first player. *)
Lemma record_guess_multi normalizedGuess scoredGuess p game :
  mode game = multiplayer →
  gameStatus game = playing →
  let game' := record_guess normalizedGuess scoredGuess p game in
  (currentPlayerIndex game' ≠ 0 →
     gameStatus game' = playing ∧ winnerId game' = winnerId game)
  ∧ (currentPlayerIndex game' = 0 →
       match winners game' with
       | first :: _ =>
           gameStatus game' = won ∧ winnerId game' = Some (player_id first)
       | [] =>
           winnerId game' = winnerId game
           ∧ gameStatus game'
             = if decide (currentRow game' >= maxRounds game)%Z then lost else playing
       end).
Proof.
  intros Hmode Hplaying. unfold record_guess, advance, winners. simpl.
  rewrite decide_True by done. rewrite length_insert.
  set (idx' := (currentPlayerIndex game + 1) mod length (players game)).
  set (ps := <[currentPlayerIndex game := _]> (players game)).
  destruct (decide (idx' = 0)) as [Hzero | Hnonzero]; simpl.
  - rewrite decide_True by (by left). simpl.
    destruct (filter _ ps) as [|first rest] eqn:Hw; simpl.
    + destruct (decide (currentRow game + 1 >= maxRounds game)%Z); simpl;
        rewrite Hw; (split; [intros ?; done|]); intros _; simpl;
        (split; [done|]); [by rewrite decide_True | by rewrite decide_False].
    + rewrite Hw. split; [intros ?; done | done].
  - rewrite decide_False by (intros [? | ?]; done). simpl.
    split; [by intros _ | done].
Qed.

End SubmissionProperties.

Section SubmissionOutcomes.

Variable wordList : list string.

(** The characters of a scored guess spell the normalised guess. *)
Lemma score_step_chars normalizedGuess game scoredGuess game1 :
  score_step normalizedGuess game = inr (scoredGuess, game1) →
  map char scoredGuess = letters normalizedGuess.
Proof.
  unfold score_step. case_decide.
  - destruct (candidateWords game) as [[|w ws]|]; try done.
    destruct (absurdleScoreGuess normalizedGuess (w :: ws)) as [|r] eqn:Hsel; [done|].
    destruct (absurdleScoreGuess_minimalSet normalizedGuess (w :: ws))
      as (first & rest & _ & Heq); [done|].
    rewrite Hsel in Heq. injection Heq as ->.
    case_decide; simpl.
    + intros [= <- <-]. rewrite map_map. simpl. apply map_id.
    + unfold truthy. case_decide.
      * intros [= <- <-]. by rewrite scoreGuess_chars, letters_toUpperCase.
      * intros [= <- <-]. simpl. apply scoreGuess_chars.
  - intros [= <- <-]. apply scoreGuess_chars.
Qed.

(** When the selector selects an answer, the pattern it returns is the score
    of the guess against that answer. *)
Lemma absurdleScoreGuess_pattern guess pool r a :
  absurdleScoreGuess guess pool = inr r →
  selectedAnswer r = Some a →
  finalPattern r = scoreGuess guess a.
Proof.
  intros Hres Ha. destruct pool as [|w ws]; [done|].
  destruct (absurdleScoreGuess_minimalSet guess (w :: ws))
    as (first & rest & _ & Heq); [done|].
  rewrite Hres in Heq. injection Heq as ->.
  case_decide; simpl in *; [done|]. injection Ha as <-.
  apply scoreGuess_toUpperCase_l.
Qed.

Lemma normalize_upper guess : Js.toUpperCase (normalize guess) = normalize guess.
Proof. apply toUpperCase_idemp. Qed.

Lemma submitGuess_keeps_configuration_step games gameId guess playerId out games'
    game game' :
  games !! gameId = Some game →
  submitGuess wordList games gameId guess playerId = (out, games') →
  games' !! gameId = Some game' →
  mode game' = mode game ∧ maxRounds game' = maxRounds game.
Proof.
  intros Hgame Hcall Hgame'.
  destruct (submitGuess_store _ _ _ _ _ _ _ Hcall)
    as [-> | (game0 & g' & Hgame0 & _ & -> & _ & Hmode & Hmax & _)].
  - split; congruence.
  - rewrite lookup_insert_eq in Hgame'. split; congruence.
Qed.

(** X12.  Guess lists are append-only.  An accepted guess appends the scored
    guess that is returned to the list of the player whose turn it was,
    raises that player's winner flag when the guess equals the answer, and
    leaves every other player as it was. *)
Theorem submitGuess_appends games gameId guess playerId gameState scoredGuess
    games' game :
  games !! gameId = Some game →
  submitGuess wordList games gameId guess playerId
  = (inr (gameState, scoredGuess), games') →
  ∃ game' p,
    games' !! gameId = Some game'
    ∧ players game !! currentPlayerIndex game = Some p
    ∧ players game'
      = <[currentPlayerIndex game :=
            guessed scoredGuess (bool_decide (normalize guess = answer game')) p]>
          (players game).
Proof.
  intros Hgame Hcall.
  destruct (submitGuess_returns _ _ _ _ _ _ _ Hcall)
    as (game0 & sg & game1 & p & Hgame0 & _ & _ & Hletters & _ & _ & Hscore & Hp
        & Hres & ->).
  rewrite Hgame in Hgame0. injection Hgame0 as <-. injection Hres as _ <-.
  destruct (score_step_frame _ _ _ _ Hscore) as (_ & _ & Hplayers & Hidx & _).
  destruct (record_guess_frame (normalize guess) scoredGuess p game1)
    as (_ & _ & Hanswer & _).
  eexists _, p. split; [apply lookup_insert_eq|].
  split; [congruence|].
  rewrite record_guess_players by done.
  rewrite Hanswer, is_win_eq by (by apply only_letters_nonempty).
  by rewrite Hplayers, Hidx.
Qed.


(** One accepted guess in a single-player or absurdle game. *)
Lemma submitGuess_single_step games gameId guess playerId res games' game :
  games !! gameId = Some game →
  mode game ≠ multiplayer →
  submitGuess wordList games gameId guess playerId = (inr res, games') →
  ∃ game' p,
    games' !! gameId = Some game'
    ∧ players game !! currentPlayerIndex game = Some p
    ∧ currentPlayerIndex game' = currentPlayerIndex game
    ∧ (normalize guess = answer game' →
         gameStatus game' = won
         ∧ winnerId game' = Some (player_id p)
         ∧ currentRow game' = currentRow game)
    ∧ (normalize guess ≠ answer game' →
         currentRow game' = (currentRow game + 1)%Z
         ∧ winnerId game' = winnerId game
         ∧ gameStatus game'
           = if decide (currentRow game + 1 >= maxRounds game)%Z
             then lost else playing).
Proof.
  intros Hgame Hmode Hcall.
  destruct (submitGuess_returns _ _ _ _ _ _ _ Hcall)
    as (game0 & sg & game1 & p & Hgame0 & Hplaying & _ & Hletters & _ & _ & Hscore
        & Hp & _ & ->).
  rewrite Hgame in Hgame0. injection Hgame0 as <-.
  destruct (score_step_frame _ _ _ _ Hscore)
    as (_ & Hmode1 & Hplayers & Hidx & Hrow & Hstatus & Hwinner & Hmax & _).
  destruct (record_guess_frame (normalize guess) sg p game1)
    as (_ & _ & Hanswer & _).
  destruct (record_guess_single (normalize guess) sg p game1) as (Hidx' & Hwin & Hother);
    [congruence|].
  rewrite is_win_eq in Hwin, Hother by (by apply only_letters_nonempty).
  eexists _, p. split; [apply lookup_insert_eq|].
  split; [congruence|]. split; [congruence|].
  rewrite Hanswer. split.
  - intros Heq. rewrite <- Hrow. apply Hwin. by apply bool_decide_eq_true.
  - intros Hneq. rewrite <- Hrow, <- Hwinner, <- Hmax.
    destruct Hother as (? & ? & Hst); [by apply bool_decide_eq_false|].
    split_and!; try done. rewrite Hst. case_decide; congruence.
Qed.

(** X13.  Single-player and absurdle games decide every guess at once: a
    guess equal to the answer wins the game for the player without using a
    round; any other accepted guess adds one to the round counter and the
    game is lost exactly when that counter reaches [maxRounds].  The turn
    index does not move. *)
Theorem submitGuess_single_outcome games gameId guess playerId res games' game :
  games !! gameId = Some game →
  mode game ≠ multiplayer →
  submitGuess wordList games gameId guess playerId = (inr res, games') →
  ∃ game' p,
    games' !! gameId = Some game'
    ∧ players game !! currentPlayerIndex game = Some p
    ∧ currentPlayerIndex game' = currentPlayerIndex game
    ∧ (normalize guess = answer game' →
         gameStatus game' = won
         ∧ winnerId game' = Some (player_id p)
         ∧ currentRow game' = currentRow game)
    ∧ (normalize guess ≠ answer game' →
         currentRow game' = (currentRow game + 1)%Z
         ∧ winnerId game' = winnerId game
         ∧ gameStatus game'
           = if decide (currentRow game + 1 >= maxRounds game)%Z
             then lost else playing).
Proof. apply submitGuess_single_step. Qed.

(** X14.  Multiplayer games are decided at round boundaries only.  An
    accepted guess passes the turn to the next player; while the turn is not
    back at the first player the game stays in play and records no winner,
    even when the guess was correct.  When the turn is back at the first
    player the round counter grows by one and the game is won if some player
    is flagged as winner, the recorded winner being the first such player;
    otherwise it is lost exactly when the round counter has reached
    [maxRounds]. *)
Theorem submitGuess_multiplayer_outcome games gameId guess playerId res games' game :
  games !! gameId = Some game →
  mode game = multiplayer →
  submitGuess wordList games gameId guess playerId = (inr res, games') →
  ∃ game',
    games' !! gameId = Some game'
    ∧ currentPlayerIndex game'
      = (currentPlayerIndex game + 1) mod length (players game)
    ∧ (currentPlayerIndex game' ≠ 0 →
         gameStatus game' = playing
         ∧ winnerId game' = winnerId game
         ∧ currentRow game' = currentRow game)
    ∧ (currentPlayerIndex game' = 0 →
         currentRow game' = (currentRow game + 1)%Z
         ∧ match winners game' with
           | first :: _ =>
               gameStatus game' = won ∧ winnerId game' = Some (player_id first)
           | [] =>
               winnerId game' = winnerId game
               ∧ gameStatus game'
                 = if decide (currentRow game + 1 >= maxRounds game)%Z
                   then lost else playing
           end).
Proof.
  intros Hgame Hmode Hcall.
  destruct (submitGuess_returns _ _ _ _ _ _ _ Hcall)
    as (game0 & sg & game1 & p & Hgame0 & Hplaying & _ & _ & _ & _ & Hscore
        & Hp & _ & ->).
  rewrite Hgame in Hgame0. injection Hgame0 as <-.
  destruct (score_step_frame _ _ _ _ Hscore)
    as (_ & Hmode1 & Hplayers & Hidx & Hrow & Hstatus & Hwinner & Hmax & _).
  assert (Hmp : mode game1 = multiplayer) by congruence.
  assert (Hpl : gameStatus game1 = playing) by congruence.
  destruct (record_guess_multiplayer (normalize guess) sg p game1 Hmp) as [Hidx' Hrow'].
  destruct (record_guess_multi (normalize guess) sg p game1 Hmp Hpl) as [Hmid Hend].
  set (game' := record_guess (normalize guess) sg p game1) in *.
  exists game'. split; [apply lookup_insert_eq|].
  split; [congruence|]. split.
  - intros Hnz. destruct (Hmid Hnz) as [? ?].
    rewrite decide_False in Hrow' by done. split_and!; [done | congruence | lia].
  - intros Hz. rewrite decide_True in Hrow' by done.
    split; [lia|]. specialize (Hend Hz).
    destruct (winners game'); [|done].
    destruct Hend as [? Hst]. split; [congruence|].
    rewrite Hst, Hrow', Hrow, Hmax. done.
Qed.

(** X15.  An absurdle game with no answer yet: the scored guess returned by
    an accepted submission is the pattern the selector returned for the
    stored candidate list, and the game is won by that guess exactly when
    the selector selected the guess itself as the answer. *)
Theorem submitGuess_absurdle_outcome games gameId guess playerId gameState scoredGuess
    games' game :
  games !! gameId = Some game →
  mode game = absurdle →
  answer game = ""%string →
  submitGuess wordList games gameId guess playerId
  = (inr (gameState, scoredGuess), games') →
  ∃ pool r game',
    candidateWords game = Some pool
    ∧ absurdleScoreGuess (normalize guess) pool = inr r
    ∧ scoredGuess = finalPattern r
    ∧ games' !! gameId = Some game'
    ∧ (gameStatus game' = won ↔ selectedAnswer r = Some (normalize guess)).
Proof.
  intros Hgame Hmode Hanswer Hcall.
  destruct (submitGuess_returns _ _ _ _ _ _ _ Hcall)
    as (game0 & sg & game1 & p & Hgame0 & Hplaying & _ & Hletters & _ & _ & Hscore
        & Hp & Hres & ->).
  rewrite Hgame in Hgame0. injection Hgame0 as <-. injection Hres as _ <-.
  apply only_letters_nonempty in Hletters as Hne.
  destruct (score_step_unresolved _ _ _ _ Hmode Hanswer Hscore)
    as (pool & r & Hpool & Hsel & _ & Hsome & Hnone).
  destruct (score_step_frame _ _ _ _ Hscore)
    as (_ & Hmode1 & _ & _ & _ & Hstatus & _).
  destruct (record_guess_single (normalize guess) scoredGuess p game1)
    as (_ & Hwin & Hother); [congruence|].
  rewrite is_win_eq in Hwin, Hother by done.
  exists pool, r. eexists. split; [done|]. split; [done|]. split.
  - revert Hscore. unfold score_step. rewrite decide_True, Hpool by done.
    destruct pool as [|w ws]; [done|]. rewrite Hsel.
    destruct (selectedAnswer r) as [a|] eqn:Ha; [|by intros [= <- _]].
    unfold truthy. destruct (decide (a = ""%string)); [by intros [= <- _]|].
    intros [= <- _]. simpl. symmetry. by apply absurdleScoreGuess_pattern with (w :: ws).
  - split; [apply lookup_insert_eq|].
    destruct (bool_decide_reflect (normalize guess = answer game1)) as [Heq | Hneq].
    + destruct Hwin as (-> & _); [done|]. split; [intros _ | done].
      destruct (selectedAnswer r) as [a|] eqn:Ha.
      * f_equal. rewrite Heq. symmetry. by apply Hsome.
      * rewrite Hnone in Heq by done. done.
    + destruct Hother as (_ & _ & ->); [done|]. split.
      * case_decide; congruence.
      * intros Ha. destruct Hneq. symmetry. by apply Hsome.
Qed.


(** X16.  Only validated guesses are recorded.  When a submission is
    accepted, the normalised guess (trimmed, upper case) is a word of the
    dictionary, has the configured word length, consists of the letters A to
    Z only, and the scored guess returned spells it letter by letter. *)
Theorem submitGuess_accepts_valid_words games gameId guess playerId gameState
    scoredGuess games' game :
  games !! gameId = Some game →
  submitGuess wordList games gameId guess playerId
  = (inr (gameState, scoredGuess), games') →
  normalize guess ∈ wordList
  ∧ Z.of_nat (String.length (normalize guess)) = wordLength game
  ∧ Forall (fun c => is_upper_letter c = true) (Js.split (normalize guess))
  ∧ map char scoredGuess = Js.split (normalize guess).
Proof.
  intros Hgame Hcall.
  destruct (submitGuess_returns _ _ _ _ _ _ _ Hcall)
    as (game0 & sg & game1 & p & Hgame0 & _ & Hlen & Hletters & Hvalid & _ & Hscore
        & _ & Hres & _).
  rewrite Hgame in Hgame0. injection Hgame0 as <-. injection Hres as _ <-.
  assert (Hall : forallb is_upper_letter (Js.split (normalize guess)) = true).
  { unfold only_letters in Hletters. by destruct (Js.split (normalize guess)). }
  split_and!.
  - unfold isValidWord in Hvalid. apply bool_decide_eq_true in Hvalid.
    by rewrite normalize_upper in Hvalid.
  - done.
  - apply Forall_forall. intros c Hc. rewrite forallb_forall in Hall.
    apply Hall. by apply list_elem_of_In.
  - rewrite (score_step_chars _ _ _ _ Hscore). by apply letters_normalized.
Qed.

(** The state returned by an accepted submission is the state that
    [getGame] returns for the game afterwards. *)
Theorem getGame_after_submitGuess games gameId guess playerId gameState scoredGuess
    games' :
  submitGuess wordList games gameId guess playerId
  = (inr (gameState, scoredGuess), games') →
  getGame games' gameId = Some gameState.
Proof.
  intros Hcall.
  destruct (submitGuess_returns _ _ _ _ _ _ _ Hcall)
    as (game0 & sg & game1 & p & _ & _ & _ & _ & _ & _ & _ & _ & Hres & ->).
  injection Hres as -> _. unfold getGame. by rewrite lookup_insert_eq.
Qed.

(** X17.  The winning guess is the answer that is revealed: when an accepted
    guess wins a single-player or absurdle game, [getGameAnswer] returns the
    normalised guess from then on. *)
Theorem getGameAnswer_after_win games gameId guess playerId res games' game game' :
  games !! gameId = Some game →
  mode game ≠ multiplayer →
  submitGuess wordList games gameId guess playerId = (inr res, games') →
  games' !! gameId = Some game' →
  gameStatus game' = won →
  getGameAnswer games' gameId = Some (normalize guess).
Proof.
  intros Hgame Hmode Hcall Hgame' Hwon.
  destruct (submitGuess_returns _ _ _ _ _ _ _ Hcall)
    as (game0 & sg & game1 & p & Hgame0 & Hplaying & _ & Hletters & _ & _ & Hscore
        & _ & _ & ->).
  rewrite Hgame in Hgame0. injection Hgame0 as <-.
  rewrite lookup_insert_eq in Hgame'. injection Hgame' as <-.
  apply only_letters_nonempty in Hletters as Hne.
  destruct (score_step_frame _ _ _ _ Hscore) as (_ & Hmode1 & _ & _ & _ & Hstatus & _).
  destruct (record_guess_frame (normalize guess) sg p game1) as (_ & Hmode' & Hanswer & _).
  destruct (record_guess_single (normalize guess) sg p game1)
    as (_ & _ & Hother); [congruence|].
  rewrite is_win_eq in Hother by done.
  assert (Heq : normalize guess = answer game1).
  { destruct (bool_decide_reflect (normalize guess = answer game1)) as [? | Hneq]; [done|].
    destruct Hother as (_ & _ & Hst); [done|].
    rewrite Hst in Hwon. case_decide; congruence. }
  unfold getGameAnswer. rewrite lookup_insert_eq, Hwon. simpl.
  rewrite Hanswer, <- Heq. clear Hother.
  destruct (decide (mode (record_guess (normalize guess) sg p game1) = absurdle));
    [by rewrite decide_True | done].
Qed.

(** X18.  Turn enforcement: in a multiplayer game a submission that carries
    a (non-empty) player id is accepted only from the player whose turn it
    is. *)
Theorem submitGuess_accepts_current_player games gameId guess playerId res games' game :
  games !! gameId = Some game →
  mode game = multiplayer →
  playerId ≠ ""%string →
  submitGuess wordList games gameId guess (Some playerId) = (inr res, games') →
  ∃ p, players game !! currentPlayerIndex game = Some p ∧ player_id p = playerId.
Proof.
  intros Hgame Hmode Hid Hcall.
  destruct (submitGuess_returns _ _ _ _ _ _ _ Hcall)
    as (game0 & sg & game1 & p & Hgame0 & _ & _ & _ & _ & Hturn & _).
  rewrite Hgame in Hgame0. injection Hgame0 as <-.
  unfold turn_check in Hturn. rewrite decide_True in Hturn by done.
  unfold truthy in Hturn. rewrite decide_False in Hturn by done.
  destruct (players game !! currentPlayerIndex game) as [q|]; [|done].
  case_decide as Hq; [done|]. exists q. split; [done|].
  by injection Hq.
Qed.


(** X19.  A single-player or absurdle game accepts only so many guesses: a
    run of consecutive accepted guesses is never longer than the rounds that
    are left, [maxRounds - currentRow] (and one guess is accepted when no
    round is left but the game is still in play). *)
Theorem single_player_game_length gameId inputs :
  ∀ games game games',
    games !! gameId = Some game →
    mode game ≠ multiplayer →
    inputs ≠ [] →
    submit_all wordList games gameId inputs = Some games' →
    (Z.of_nat (length inputs) ≤ Z.max 1 (maxRounds game - currentRow game))%Z.
Proof.
  induction inputs as [|[guess playerId] inputs IH];
    intros games game games' Hgame Hmode Hne Hall; [done|].
  simpl in Hall.
  destruct (submitGuess wordList games gameId guess playerId)
    as [[e|res] games1] eqn:Hcall; [done|].
  destruct inputs as [|[guess2 playerId2] inputs]; [simpl; lia|].
  destruct (submitGuess_single_step _ _ _ _ _ _ _ Hgame Hmode Hcall)
    as (game1 & p & Hgame1 & _ & _ & Hwin & Hother).
  assert (Hplaying1 : gameStatus game1 = playing).
  { simpl in Hall.
    destruct (submitGuess wordList games1 gameId guess2 playerId2)
      as [[e|res2] games2] eqn:Hcall2; [done|].
    destruct (submitGuess_returns _ _ _ _ _ _ _ Hcall2)
      as (g & _ & _ & _ & Hg & Hpl & _).
    congruence. }
  destruct (submitGuess_keeps_configuration_step _ _ _ _ _ _ _ _ Hgame Hcall Hgame1)
    as (Hmode1 & Hmax1).
  destruct (decide (normalize guess = answer game1)) as [Heq | Hneq].
  { destruct (Hwin Heq) as (Hwon & _). congruence. }
  destruct (Hother Hneq) as (Hrow & _ & Hst).
  rewrite Hst in Hplaying1. case_decide as Hlast; [done|].
  specialize (IH games1 game1 games' Hgame1 ltac:(congruence) ltac:(done) Hall).
  rewrite Hmax1, Hrow in IH. simpl length in *. lia.
Qed.

End SubmissionOutcomes.

(** ** The submission properties on the sample sessions *)

Example submit_duel_crane :
  submitGuess Sample.words Sample.store "g1" "crane" None
  = (inr (toClientGameState Fixtures.duel_crane "", scoreGuess "CRANE" "CRANE"),
     <["g1"%string := Fixtures.duel_crane]> Sample.store).
Proof. vm_compute. reflexivity. Qed.

Example submit_duel_slate :
  submitGuess Sample.words Sample.store "g1" " slate " (Some "p1"%string)
  = (inr (toClientGameState Fixtures.duel_slate "", scoreGuess "SLATE" "CRANE"),
     <["g1"%string := Fixtures.duel_slate]> Sample.store).
Proof. vm_compute. reflexivity. Qed.

Example submit_classic_slate :
  submitGuess Sample.words Fixtures.store "g5" "slate" None
  = (inr (toClientGameState Fixtures.classic_slate "", scoreGuess "SLATE" "SLATE"),
     <["g5"%string := Fixtures.classic_slate]> Fixtures.store).
Proof. vm_compute. reflexivity. Qed.

Example submit_hunt_crane :
  submitGuess Sample.words Sample.store "g2" "crane" None
  = (inr (toClientGameState Fixtures.hunt_crane "", scoreGuess "CRANE" "APPLE"),
     <["g2"%string := Fixtures.hunt_crane]> Sample.store).
Proof. vm_compute. reflexivity. Qed.

Lemma submitGuess_other_games_witness :
  (submitGuess Sample.words Sample.store "g1" "crane" None).2 !! "g2"%string
  = Sample.store !! "g2"%string
  ∧ dom (submitGuess Sample.words Sample.store "g1" "crane" None).2
    = dom Sample.store.
Proof. apply (submitGuess_other_games Sample.words Sample.store "g1" "crane" None "g2"). done. Defined.

Lemma finished_game_is_final_witness :
  (submitGuess Sample.words Sample.store "g4" "apple" None).2 !! "g4"%string
  = Some Sample.solved.
Proof.
  apply (finished_game_is_final Sample.words Sample.store "g4" Sample.solved "g4"
           "apple" None); [reflexivity | done].
Defined.

Lemma submitGuess_keeps_configuration_witness :
  ∃ game',
    (submitGuess Sample.words Sample.store "g1" "crane" None).2 !! "g1"%string
    = Some game'
    ∧ game_id game' = "g1"%string
    ∧ mode game' = multiplayer
    ∧ maxRounds game' = 6%Z
    ∧ wordLength game' = 5%Z
    ∧ length (players game') = 2.
Proof.
  apply (submitGuess_keeps_configuration Sample.words Sample.store "g1" Sample.duel
           "crane" None).
  reflexivity.
Defined.

Lemma submitGuess_appends_witness :
  ∃ game' p,
    <["g1"%string := Fixtures.duel_crane]> Sample.store !! "g1"%string = Some game'
    ∧ players Sample.duel !! 0 = Some p
    ∧ players game'
      = <[0 := guessed (scoreGuess "CRANE" "CRANE")
                 (bool_decide (normalize "crane" = answer game')) p]>
          (players Sample.duel).
Proof.
  exact (submitGuess_appends Sample.words Sample.store "g1" "crane" None
           _ _ _ Sample.duel eq_refl submit_duel_crane).
Defined.

Lemma submitGuess_single_outcome_witness :
  ∃ game' p,
    <["g5"%string := Fixtures.classic_slate]> Fixtures.store !! "g5"%string = Some game'
    ∧ players Fixtures.classic !! 0 = Some p
    ∧ currentPlayerIndex game' = 0
    ∧ (normalize "slate" = answer game' →
         gameStatus game' = won
         ∧ winnerId game' = Some (player_id p)
         ∧ currentRow game' = 0%Z)
    ∧ (normalize "slate" ≠ answer game' →
         currentRow game' = 1%Z
         ∧ winnerId game' = None
         ∧ gameStatus game' = playing).
Proof.
  exact (submitGuess_single_outcome Sample.words Fixtures.store "g5" "slate" None
           _ _ Fixtures.classic eq_refl ltac:(done) submit_classic_slate).
Defined.

Lemma submitGuess_multiplayer_outcome_witness :
  ∃ game',
    <["g1"%string := Fixtures.duel_crane]> Sample.store !! "g1"%string = Some game'
    ∧ currentPlayerIndex game' = 1
    ∧ (currentPlayerIndex game' ≠ 0 →
         gameStatus game' = playing
         ∧ winnerId game' = None
         ∧ currentRow game' = 0%Z)
    ∧ (currentPlayerIndex game' = 0 →
         currentRow game' = 1%Z
         ∧ match winners game' with
           | first :: _ =>
               gameStatus game' = won ∧ winnerId game' = Some (player_id first)
           | [] => winnerId game' = None ∧ gameStatus game' = playing
           end).
Proof.
  exact (submitGuess_multiplayer_outcome Sample.words Sample.store "g1" "crane" None
           _ _ Sample.duel eq_refl eq_refl submit_duel_crane).
Defined.

Lemma submitGuess_absurdle_outcome_witness :
  ∃ pool r game',
    candidateWords Sample.hunt = Some pool
    ∧ absurdleScoreGuess (normalize "crane") pool = inr r
    ∧ scoreGuess "CRANE" "APPLE" = finalPattern r
    ∧ <["g2"%string := Fixtures.hunt_crane]> Sample.store !! "g2"%string = Some game'
    ∧ (gameStatus game' = won ↔ selectedAnswer r = Some (normalize "crane")).
Proof.
  exact (submitGuess_absurdle_outcome Sample.words Sample.store "g2" "crane" None
           _ _ _ Sample.hunt eq_refl eq_refl eq_refl submit_hunt_crane).
Defined.

Lemma submitGuess_accepts_valid_words_witness :
  normalize " slate " ∈ Sample.words
  ∧ Z.of_nat (String.length (normalize " slate ")) = wordLength Sample.duel
  ∧ Forall (fun c => is_upper_letter c = true) (Js.split (normalize " slate "))
  ∧ map char (scoreGuess "SLATE" "CRANE") = Js.split (normalize " slate ").
Proof.
  exact (submitGuess_accepts_valid_words Sample.words Sample.store "g1" " slate "
           (Some "p1"%string) _ _ _ Sample.duel eq_refl submit_duel_slate).
Defined.

Lemma getGame_after_submitGuess_witness :
  getGame (<["g1"%string := Fixtures.duel_slate]> Sample.store) "g1"
  = Some (toClientGameState Fixtures.duel_slate "").
Proof.
  exact (getGame_after_submitGuess Sample.words Sample.store "g1" " slate "
           (Some "p1"%string) _ _ _ submit_duel_slate).
Defined.

Lemma getGameAnswer_after_win_witness :
  getGameAnswer (<["g5"%string := Fixtures.classic_slate]> Fixtures.store) "g5"
  = Some (normalize "slate").
Proof.
  apply (getGameAnswer_after_win Sample.words Fixtures.store "g5" "slate" None
           _ _ Fixtures.classic Fixtures.classic_slate eq_refl ltac:(done)
           submit_classic_slate).
  - reflexivity.
  - reflexivity.
Defined.

Lemma submitGuess_accepts_current_player_witness :
  ∃ p, players Sample.duel !! currentPlayerIndex Sample.duel = Some p
       ∧ player_id p = "p1"%string.
Proof.
  exact (submitGuess_accepts_current_player Sample.words Sample.store "g1" " slate "
           "p1" _ _ Sample.duel eq_refl eq_refl ltac:(done) submit_duel_slate).
Defined.

Example submit_all_classic :
  is_Some (submit_all Sample.words Fixtures.store "g5"
             [("crane", None); ("apple", None)]%string).
Proof. vm_compute. eexists. reflexivity. Qed.

Lemma single_player_game_length_witness :
  (Z.of_nat (length [("crane", None); ("apple", @None string)]%string)
   ≤ Z.max 1 (maxRounds Fixtures.classic - currentRow Fixtures.classic))%Z.
Proof.
  destruct submit_all_classic as [games' Hall].
  exact (single_player_game_length Sample.words "g5"
           [("crane", None); ("apple", None)]%string
           Fixtures.store Fixtures.classic games' eq_refl ltac:(done) ltac:(done) Hall).
Defined.

(** ** Creation and the invariant of stored games *)

Section CreationProperties.

Variable wordList : list string.

(** What a successful [createGame] stores and returns. *)
Lemma createGame_returns games config uuid randomIndex gameId gameState games' :
  createGame wordList games config uuid randomIndex
  = (inr (gameId, gameState), games') →
  ∃ answer players,
    let cfg := default defaultConfig config in
    let game :=
      mkGame (uuid 0) answer (cfg_mode cfg) players 0 0 playing None
             (cfg_maxRounds cfg) (cfg_wordLength cfg)
             (if decide (cfg_mode cfg = absurdle) then Some wordList else None) in
    gameId = uuid 0
    ∧ gameState = toClientGameState game ""
    ∧ games' = <[uuid 0 := game]> games
    ∧ new_players cfg uuid = Some players
    ∧ (if decide (cfg_mode cfg = absurdle) then answer = ""%string
       else getRandomWord wordList randomIndex = Some answer).
Proof.
  unfold createGame. cbv zeta.
  generalize (default defaultConfig config). intros cfg.
  destruct (decide (cfg_mode cfg = absurdle)) as [Habs | Hnabs].
  - destruct (new_players cfg uuid) as [players|] eqn:Hplayers; [|done].
    intros [= <- <- <-]. exists ""%string, players. done.
  - destruct (getRandomWord wordList randomIndex) as [answer|] eqn:Hanswer; [|done].
    destruct (new_players cfg uuid) as [players|] eqn:Hplayers; [|done].
    intros [= <- <- <-]. exists answer, players. done.
Qed.

Lemma new_players_fresh cfg uuid players :
  new_players cfg uuid = Some players →
  Forall (fun p => guesses p = [] ∧ isWinner p = false) players
  ∧ (cfg_mode cfg ≠ multiplayer → length players = 1).
Proof.
  unfold new_players. destruct (cfg_mode cfg).
  - intros [= <-]. split; [repeat constructor | done].
  - destruct (cfg_playerNames cfg) as [names|]; [|done]. intros [= <-].
    split; [|done]. apply Forall_forall. intros p Hp.
    apply elem_of_lookup_imap in Hp as (k & name & -> & _). done.
  - intros [= <-]. split; [repeat constructor | done].
Qed.

Lemma winners_none_fresh (players : list Player) :
  Forall (fun p => guesses p = [] ∧ isWinner p = false) players →
  filter (fun player => isWinner player = true) players = [].
Proof.
  induction 1 as [|p ps [_ Hp] _ IH]; [done|].
  rewrite filter_cons, decide_False by congruence. done.
Qed.

(** A game just created satisfies the invariant. *)
Lemma createGame_well_formed games config uuid randomIndex gameId gameState games' game :
  createGame wordList games config uuid randomIndex
  = (inr (gameId, gameState), games') →
  games' !! gameId = Some game →
  well_formed wordList game.
Proof.
  intros Hcall Hgame.
  destruct (createGame_returns _ _ _ _ _ _ _ Hcall)
    as (answer & players & -> & _ & -> & Hplayers & Hanswer).
  rewrite lookup_insert_eq in Hgame. injection Hgame as <-.
  destruct (new_players_fresh _ _ _ Hplayers) as [Hfresh Hone].
  set (cfg := default defaultConfig config) in *.
  split; simpl.
  - intros Hne. destruct players; [done | simpl; lia].
  - intros Hmode. split; [by apply Hone | done].
  - done.
  - intros k p Hp. rewrite Forall_lookup in Hfresh.
    destruct (Hfresh k p Hp) as [-> _]. unfold guesses_ahead. simpl.
    destruct (cfg_mode cfg); simpl; repeat case_decide; first [done | lia].
  - intros k p g Hp Hg. rewrite Forall_lookup in Hfresh.
    destruct (Hfresh k p Hp) as [Hnil _]. rewrite Hnil in Hg. by apply elem_of_nil in Hg.
  - split; done.
  - done.
  - done.
  - intros _. by right.
  - intros _ _. unfold winners. simpl. by apply winners_none_fresh.
  - intros Hmode. rewrite decide_True by done. exists wordList.
    rewrite decide_True in Hanswer by done. subst answer. split_and!; done.
  - intros Hmode. rewrite decide_False by done. rewrite decide_False in Hanswer by done.
    split; [done|]. unfold getRandomWord in Hanswer.
    destruct (wordList !! randomIndex) as [w|] eqn:Hw; [|done].
    injection Hanswer as <-. apply list_elem_of_In, in_map, list_elem_of_In.
    by eapply list_elem_of_lookup_2.
Qed.


Lemma absurdleScoreGuess_subset guess pool r :
  absurdleScoreGuess guess pool = inr r → remainingWords r ⊆ pool.
Proof.
  intros Hres. destruct pool as [|w ws]; [done|].
  destruct (absurdleScoreGuess_minimalSet guess (w :: ws))
    as (first & rest & Hms & Heq); [done|].
  rewrite Hres in Heq. injection Heq as ->.
  assert (Hsub : first :: rest ⊆ w :: ws).
  { rewrite <- Hms. intros x Hx. unfold minimalSet in Hx.
    by apply list_elem_of_filter in Hx as [_ Hx]. }
  by case_decide.
Qed.

(** The scoring step keeps the invariant. *)
Lemma score_step_well_formed normalizedGuess game scoredGuess game1 :
  well_formed wordList game →
  score_step normalizedGuess game = inr (scoredGuess, game1) →
  well_formed wordList game1.
Proof.
  intros Hwf Hstep.
  destruct (decide (mode game = absurdle ∧ answer game = ""%string)) as [[Hmode Hans] | Hfixed].
  2: { by destruct (score_step_fixed _ _ _ _ Hfixed Hstep) as [-> _]. }
  destruct (score_step_unresolved _ _ _ _ Hmode Hans Hstep)
    as (pool & r & Hpool & Hsel & Hkept & Hsome & Hnone).
  destruct (score_step_frame _ _ _ _ Hstep)
    as (Hid & Hmode1 & Hplayers & Hidx & Hrow & Hstatus & Hwinner & Hmax & Hlen).
  destruct (absurdleScoreGuess_remaining _ _ _ Hsel) as [Hne Hin].
  pose proof (absurdleScoreGuess_subset _ _ _ Hsel) as Hsub.
  destruct Hwf as [W1 W2 W3 W4 W5 W6 W7 W8 W9 W10 W11 W12].
  assert (Hahead : ∀ k, guesses_ahead game1 k = guesses_ahead game k).
  { intros k. unfold guesses_ahead. by rewrite Hmode1, Hidx, Hstatus. }
  assert (Hwinners : winners game1 = winners game).
  { unfold winners. by rewrite Hplayers. }
  split.
  - by rewrite Hplayers, Hidx.
  - by rewrite Hmode1, Hplayers, Hidx.
  - by rewrite Hrow.
  - intros k p. rewrite Hplayers, Hrow, Hahead. apply W4.
  - intros k p g. rewrite Hplayers, Hlen. apply W5.
  - by rewrite Hstatus, Hwinner.
  - by rewrite Hstatus, Hwinners, Hwinner.
  - by rewrite Hstatus, Hwinners, Hmax, Hrow.
  - by rewrite Hstatus, Hmax, Hrow.
  - by rewrite Hstatus, Hmode1, Hidx, Hwinners.
  - intros _. exists (remainingWords r).
    destruct (W11 Hmode) as (pool0 & Hpool0 & Hsub0 & _).
    rewrite Hpool in Hpool0. injection Hpool0 as <-.
    split_and!; [done | | done |].
    + intros w Hw. by apply Hsub0, Hsub.
    + intros Hanswer. destruct (selectedAnswer r) as [a|] eqn:Ha.
      * rewrite (Hsome a eq_refl). by apply Hin.
      * by rewrite Hnone in Hanswer.
  - intros Hna. rewrite Hmode1 in Hna. done.
Qed.

Lemma winners_single p :
  filter (fun player => isWinner player = true) [p]
  = if isWinner p then [p] else [].
Proof. rewrite filter_cons, filter_nil. destruct (isWinner p); by case_decide. Qed.

Lemma length_one_lookup {A} (l : list A) x :
  length l = 1 → l !! 0 = Some x → l = [x].
Proof. destruct l as [|y [|z l]]; simpl; try done. by intros _ [= ->]. Qed.


(** Recording a guess keeps the invariant: single-player and absurdle games. *)
Lemma record_guess_well_formed_single normalizedGuess scoredGuess p game :
  well_formed wordList game →
  mode game ≠ multiplayer →
  gameStatus game = playing →
  players game !! currentPlayerIndex game = Some p →
  Z.of_nat (length scoredGuess) = wordLength game →
  well_formed wordList (record_guess normalizedGuess scoredGuess p game).
Proof.
  intros [W1 W2 W3 W4 W5 W6 W7 W8 W9 W10 W11 W12] Hmode Hplaying Hp Hlen.
  destruct (W2 Hmode) as [Hone Hzero].
  rewrite Hzero in Hp. apply (length_one_lookup _ _ Hone) in Hp as Hplayers.
  assert (Hnowin : isWinner p = false).
  { specialize (W10 Hplaying (or_introl Hmode)). unfold winners in W10.
    rewrite Hplayers, winners_single in W10. by destruct (isWinner p). }
  assert (Hnone : winnerId game = None).
  { destruct (winnerId game) eqn:Hw; [|done].
    destruct W6 as [_ W6]. rewrite W6 in Hplaying; done. }
  destruct (record_guess_frame normalizedGuess scoredGuess p game)
    as (Hid' & Hmode' & Hanswer' & Hpool' & Hmax' & Hlen' & Hn').
  destruct (record_guess_single normalizedGuess scoredGuess p game Hmode)
    as (Hidx' & Hwin & Hother).
  pose proof (record_guess_players normalizedGuess scoredGuess p game) as Hplayers'.
  rewrite Hzero in Hplayers'. specialize (Hplayers' Hp).
  rewrite Hplayers in Hplayers'. simpl in Hplayers'.
  set (game' := record_guess normalizedGuess scoredGuess p game) in *.
  assert (Hwinners' : winners game'
            = if is_win normalizedGuess game
              then [guessed scoredGuess (is_win normalizedGuess game) p] else []).
  { unfold winners. rewrite Hplayers', winners_single. simpl. rewrite Hnowin. simpl.
    by destruct (is_win normalizedGuess game). }
  assert (Hrow0 : Z.of_nat (length (guesses p)) = currentRow game).
  { rewrite (W4 0 p) by (by rewrite Hplayers). unfold guesses_ahead.
    destruct (mode game); try done; rewrite decide_False by congruence; lia. }
  split.
  - intros _. rewrite Hn', Hidx'. apply W1. by rewrite Hplayers.
  - intros _. by rewrite Hn', Hidx'.
  - destruct (is_win normalizedGuess game).
    + destruct Hwin as (_ & _ & ->); done.
    + destruct Hother as (-> & _); [done | lia].
  - intros k q. rewrite Hplayers'. destruct k as [|k]; [|done]. intros [= <-].
    simpl. rewrite length_app. simpl. unfold guesses_ahead. rewrite Hmode'.
    destruct (is_win normalizedGuess game).
    + destruct Hwin as (Hst & _ & Hrow); [done|]. rewrite Hst, Hrow.
      destruct (mode game); try done; rewrite decide_True by done; lia.
    + destruct Hother as (Hrow & _ & Hst); [done|]. rewrite Hst, Hrow, Hplaying.
      destruct (mode game); try done; case_decide; rewrite decide_False by done; lia.
  - intros k q g. rewrite Hplayers', Hlen'. destruct k as [|k]; [|done]. intros [= <-].
    simpl. rewrite elem_of_app, list_elem_of_singleton. intros [Hg | ->]; [|done].
    apply (W5 0 p); [by rewrite Hplayers | done].
  - destruct (is_win normalizedGuess game).
    + destruct Hwin as (-> & -> & _); done.
    + destruct Hother as (_ & -> & ->); [done|]. rewrite Hnone, Hplaying.
      split; [case_decide; done | done].
  - intros Hwon. rewrite Hwinners'. destruct (is_win normalizedGuess game).
    + destruct Hwin as (_ & -> & _); [done|]. by eexists _, _.
    + destruct Hother as (_ & _ & Hst); [done|]. rewrite Hst, Hplaying in Hwon.
      case_decide; done.
  - intros Hlost. rewrite Hwinners', Hmax'. destruct (is_win normalizedGuess game).
    + destruct Hwin as (Hst & _); [done|]. congruence.
    + destruct Hother as (-> & _ & Hst); [done|]. rewrite Hst, Hplaying in Hlost.
      case_decide; [split; [done | lia] | done].
  - intros Hpl. rewrite Hmax'. destruct (is_win normalizedGuess game).
    + destruct Hwin as (Hst & _); [done|]. congruence.
    + destruct Hother as (-> & _ & Hst); [done|]. rewrite Hst, Hplaying in Hpl.
      case_decide; [done | left; lia].
  - intros Hpl _. rewrite Hwinners'. destruct (is_win normalizedGuess game); [|done].
    destruct Hwin as (Hst & _); [done|]. congruence.
  - rewrite Hmode', Hpool', Hanswer'. done.
  - rewrite Hmode', Hpool', Hanswer'. done.
Qed.


(** Recording a guess keeps the invariant: multiplayer games. *)
Lemma record_guess_well_formed_multi normalizedGuess scoredGuess p game :
  well_formed wordList game →
  mode game = multiplayer →
  gameStatus game = playing →
  players game !! currentPlayerIndex game = Some p →
  Z.of_nat (length scoredGuess) = wordLength game →
  well_formed wordList (record_guess normalizedGuess scoredGuess p game).
Proof.
  intros [W1 W2 W3 W4 W5 W6 W7 W8 W9 W10 W11 W12] Hmode Hplaying Hp Hlen.
  apply lookup_lt_Some in Hp as Hidx.
  assert (Hnone : winnerId game = None).
  { destruct (winnerId game) eqn:Hw; [|done].
    destruct W6 as [_ W6]. rewrite W6 in Hplaying; done. }
  destruct (record_guess_frame normalizedGuess scoredGuess p game)
    as (Hid' & Hmode' & Hanswer' & Hpool' & Hmax' & Hlen' & Hn').
  destruct (record_guess_multiplayer normalizedGuess scoredGuess p game Hmode)
    as [Hidx' Hrow'].
  destruct (record_guess_multi normalizedGuess scoredGuess p game Hmode Hplaying)
    as [Hmid Hend].
  pose proof (record_guess_players normalizedGuess scoredGuess p game Hp) as Hplayers'.
  set (game' := record_guess normalizedGuess scoredGuess p game) in *.
  assert (Hcase : (currentPlayerIndex game + 1 = length (players game)
                   ∧ currentPlayerIndex game' = 0)
                  ∨ (currentPlayerIndex game + 1 < length (players game)
                     ∧ currentPlayerIndex game' = currentPlayerIndex game + 1)).
  { rewrite Hidx'.
    destruct (decide (currentPlayerIndex game + 1 = length (players game))) as [-> | ?].
    - left. by rewrite Nat.Div0.mod_same.
    - right. split; [lia|]. apply Nat.mod_small. lia. }
  assert (Hstatus' : gameStatus game' = playing ∨ currentPlayerIndex game' = 0).
  { destruct (decide (currentPlayerIndex game' = 0)); [by right|].
    left. by apply Hmid. }
  split.
  - intros _. rewrite Hn'. destruct Hcase as [[_ ->] | [? ->]]; lia.
  - intros Hm. congruence.
  - rewrite Hrow'. destruct (decide (currentPlayerIndex game' = 0)); lia.
  - intros k q Hq. apply lookup_lt_Some in Hq as Hk.
    rewrite Hplayers', length_insert in Hk. rewrite Hplayers' in Hq.
    unfold guesses_ahead. rewrite Hmode', Hrow'.
    destruct (decide (k = currentPlayerIndex game)) as [-> | Hne].
    + rewrite list_lookup_insert_eq in Hq by done. injection Hq as <-.
      simpl. rewrite length_app. simpl.
      rewrite Nat2Z.inj_add, (W4 _ p Hp). unfold guesses_ahead. rewrite Hmode.
      rewrite (decide_False (P := currentPlayerIndex game < currentPlayerIndex game))
        by lia.
      destruct Hcase as [[_ Hz] | [_ Hs]].
      * rewrite Hz. rewrite decide_True by done. rewrite decide_False by lia. lia.
      * rewrite Hs. rewrite decide_False by lia. rewrite decide_True by lia. lia.
    + rewrite list_lookup_insert_ne in Hq by done.
      rewrite (W4 _ q Hq). unfold guesses_ahead. rewrite Hmode.
      destruct Hcase as [[Hlast Hz] | [_ Hs]].
      * rewrite Hz. rewrite (decide_True (P := 0 = 0)) by done.
        rewrite (decide_False (P := k < 0)) by lia.
        rewrite decide_True by lia. lia.
      * rewrite Hs. rewrite (decide_False (P := currentPlayerIndex game + 1 = 0)) by lia.
        repeat case_decide; lia.
  - intros k q g Hq Hg. rewrite Hplayers' in Hq. rewrite Hlen'.
    destruct (decide (k = currentPlayerIndex game)) as [-> | Hne].
    + rewrite list_lookup_insert_eq in Hq by done. injection Hq as <-.
      simpl in Hg. apply elem_of_app in Hg as [Hg | Hg].
      * by apply (W5 _ p g Hp).
      * apply list_elem_of_singleton in Hg as ->. done.
    + rewrite list_lookup_insert_ne in Hq by done. by apply (W5 k q g).
  - destruct (decide (currentPlayerIndex game' = 0)) as [Hz | Hnz].
    + specialize (Hend Hz). destruct (winners game').
      * destruct Hend as [-> ->]. rewrite Hnone. split; [case_decide; done | done].
      * destruct Hend as [-> ->]. done.
    + destruct (Hmid Hnz) as [-> ->]. by rewrite Hnone.
  - intros Hwon. destruct (decide (currentPlayerIndex game' = 0)) as [Hz | Hnz].
    + specialize (Hend Hz). destruct (winners game') as [|first rest].
      * destruct Hend as [_ Hst]. rewrite Hst in Hwon. case_decide; done.
      * destruct Hend as [_ ->]. by eexists _, _.
    + destruct (Hmid Hnz) as [Hst _]. congruence.
  - intros Hlost. destruct (decide (currentPlayerIndex game' = 0)) as [Hz | Hnz].
    + specialize (Hend Hz). destruct (winners game') as [|first rest].
      * destruct Hend as [_ Hst]. rewrite Hst in Hlost.
        case_decide; [|done]. split; [done|]. rewrite Hmax'. lia.
      * destruct Hend as [Hst _]. congruence.
    + destruct (Hmid Hnz) as [Hst _]. congruence.
  - intros Hpl. rewrite Hmax'.
    destruct (decide (currentPlayerIndex game' = 0)) as [Hz | Hnz].
    + specialize (Hend Hz). destruct (winners game') as [|first rest].
      * destruct Hend as [_ Hst]. rewrite Hst in Hpl.
        case_decide; [done|]. left. lia.
      * destruct Hend as [Hst _]. congruence.
    + rewrite Hrow', Z.add_0_r. by apply W9.
  - intros Hpl [Hm | Hz]; [congruence|].
    specialize (Hend Hz). destruct (winners game') as [|first rest]; [done|].
    destruct Hend as [Hst _]. congruence.
  - intros Hm. congruence.
  - rewrite Hmode', Hpool', Hanswer'. done.
Qed.


Lemma letters_length w : length (letters w) = String.length w.
Proof. unfold letters. by rewrite split_length, toUpperCase_length. Qed.

(** Every guess submission keeps the invariant, whatever its outcome. *)
Lemma submitGuess_well_formed games gameId game guess playerId out games' game' :
  well_formed wordList game →
  games !! gameId = Some game →
  submitGuess wordList games gameId guess playerId = (out, games') →
  games' !! gameId = Some game' →
  well_formed wordList game'.
Proof.
  intros Hwf Hgame Hcall Hgame'. destruct out as [e|res].
  - destruct (submitGuess_throws _ _ _ _ _ _ _ Hcall)
      as [-> | (_ & game0 & sg & game1 & Hgame0 & Hscore & _ & ->)].
    + congruence.
    + rewrite Hgame in Hgame0. injection Hgame0 as <-.
      rewrite lookup_insert_eq in Hgame'. injection Hgame' as <-.
      by apply (score_step_well_formed _ _ _ _ Hwf Hscore).
  - destruct (submitGuess_returns _ _ _ _ _ _ _ Hcall)
      as (game0 & sg & game1 & p & Hgame0 & Hplaying & Hlen & _ & _ & _ & Hscore
          & Hp & _ & ->).
    rewrite Hgame in Hgame0. injection Hgame0 as <-.
    rewrite lookup_insert_eq in Hgame'. injection Hgame' as <-.
    pose proof (score_step_well_formed _ _ _ _ Hwf Hscore) as Hwf1.
    destruct (score_step_frame _ _ _ _ Hscore)
      as (_ & Hmode1 & _ & _ & _ & Hstatus1 & _ & _ & Hlen1).
    assert (Hsg : Z.of_nat (length sg) = wordLength game1).
    { rewrite <- (length_map char), (score_step_chars _ _ _ _ Hscore), letters_length.
      congruence. }
    destruct (decide (mode game1 = multiplayer)).
    + apply record_guess_well_formed_multi; congruence.
    + apply record_guess_well_formed_single; congruence.
Qed.

Lemma reachable_well_formed_helper game :
  reachable wordList game → well_formed wordList game.
Proof.
  induction 1 as [games config uuid randomIndex gameId gameState games' game Hcall Hgame
                 | games gameId game guess playerId out games' game' _ IH Hgame Hcall Hgame'].
  - by eapply createGame_well_formed.
  - by eapply submitGuess_well_formed.
Qed.

(** X20.  The invariant of stored games.  Every game created by
    [createGame] and then changed by guess submissions only satisfies
    [well_formed]: the turn index points at a player; single-player and
    absurdle games have one player; every player has made [currentRow]
    guesses, plus one for the players who already guessed in the current
    multiplayer round or for the winning guess of a single-player game, each
    of [wordLength] letters; a winner id is recorded exactly when the game is
    won, and it is the id of the first player flagged as winner; a lost game
    has no winner and has used all its rounds; an absurdle game keeps a
    candidate list inside the dictionary that contains the answer once one is
    selected, and the other games have an answer from the dictionary. *)
Theorem reachable_well_formed game :
  reachable wordList game → well_formed wordList game.
Proof. apply reachable_well_formed_helper. Qed.

(** X21.  No half-done submissions.  On a reachable game that has a player,
    with a non-empty dictionary, a guess submission that throws throws one of
    the failures of the request and leaves the store exactly as it was; the
    exceptions of a broken game state ("no candidate words", "no valid
    patterns", a [TypeError]) do not occur. *)
Theorem submitGuess_fails_cleanly games gameId game guess playerId e games' :
  reachable wordList game →
  players game ≠ [] →
  wordList ≠ [] →
  games !! gameId = Some game →
  submitGuess wordList games gameId guess playerId = (inl e, games') →
  request_failure e ∧ games' = games.
Proof.
  intros Hreach Hplayers Hwords Hgame.
  apply reachable_well_formed_helper in Hreach as Hwf.
  destruct Hwf as [W1 _ _ _ _ _ _ _ _ _ W11 _].
  specialize (W1 Hplayers). apply lookup_lt_is_Some_2 in W1 as [p Hp].
  unfold submitGuess. rewrite Hgame. fold (normalize guess).
  repeat (case_decide; [by intros [= <- <-]|]).
  destruct (negb (only_letters (normalize guess))); [by intros [= <- <-]|].
  destruct (negb (isValidWord wordList (normalize guess))); [by intros [= <- <-]|].
  assert (Hturn : ∀ e', turn_check game playerId = Some e' → request_failure e').
  { unfold turn_check. rewrite Hp. intros e'.
    repeat case_decide; try done; destruct (truthy playerId); try done;
      repeat case_decide; try done; by intros [= <-]. }
  destruct (turn_check game playerId) as [e'|] eqn:Ht.
  { intros [= <- <-]. split; [by apply Hturn | done]. }
  destruct (score_step (normalize guess) game) as [e'|[sg game1]] eqn:Hscore.
  - exfalso. unfold score_step in Hscore. case_decide as Hc; [|done].
    destruct Hc as [Hmode _]. destruct (W11 Hmode) as (pool & Hpool & _ & Hne & _).
    rewrite Hpool in Hscore. specialize (Hne Hwords).
    destruct pool as [|w ws]; [done|].
    destruct (absurdleScoreGuess_minimalSet (normalize guess) (w :: ws))
      as (f & r & _ & Heq); [done|].
    rewrite Heq in Hscore. by repeat case_match.
  - destruct (score_step_frame _ _ _ _ Hscore) as (_ & _ & Hpl & Hidx & _).
    rewrite Hpl, Hidx, Hp. done.
Qed.

End CreationProperties.

Section CreationOutcomes.

Variable wordList : list string.

(** X22.  A new game.  When [createGame] returns, the id it returns is the
    first identifier drawn; the stored game is the one [getGame] gives back;
    it is in play at round 0 with the first player to move, no winner, and no
    guess made; its answer cannot be read through [getGameAnswer]; and the
    other games of the store are as before. *)
Theorem createGame_starts_fresh games config uuid randomIndex gameId gameState games' :
  createGame wordList games config uuid randomIndex
  = (inr (gameId, gameState), games') →
  gameId = uuid 0
  ∧ getGame games' gameId = Some gameState
  ∧ getGameAnswer games' gameId = None
  ∧ c_gameStatus gameState = playing
  ∧ c_currentRow gameState = 0%Z
  ∧ c_currentPlayerIndex gameState = 0
  ∧ c_winnerId gameState = None
  ∧ Forall (fun p => guesses p = [] ∧ isWinner p = false) (c_players gameState)
  ∧ (∀ other, other ≠ gameId → games' !! other = games !! other).
Proof.
  intros Hcall.
  destruct (createGame_returns _ _ _ _ _ _ _ _ Hcall)
    as (answer & players & -> & -> & -> & Hplayers & _).
  destruct (new_players_fresh _ _ _ Hplayers) as [Hfresh _].
  unfold getGame, getGameAnswer. rewrite lookup_insert_eq. simpl.
  split_and!; try done.
  intros other Hother. by rewrite lookup_insert_ne.
Qed.

(** X23.  The outcomes of [createGame].  It throws in two cases only, and
    then leaves the store as it was: for a mode other than absurdle when the
    dictionary has no word at the index drawn (an empty dictionary), and for
    a multiplayer game without player names.  Otherwise it returns a game of
    the mode, number of rounds and word length asked for (by default a
    single-player game of 6 rounds and 5 letters): one player named "Player"
    in single and absurdle mode, and in multiplayer mode one player per name,
    in order, named by the trimmed name, or "Player" when that is empty. *)
Theorem createGame_outcomes games config uuid randomIndex :
  match createGame wordList games config uuid randomIndex with
  | (inl CreateTypeError, games') =>
      games' = games
      ∧ cfg_mode (default defaultConfig config) ≠ absurdle
      ∧ length wordList ≤ randomIndex
  | (inl NamesRequired, games') =>
      games' = games
      ∧ cfg_mode (default defaultConfig config) = multiplayer
      ∧ cfg_playerNames (default defaultConfig config) = None
      ∧ randomIndex < length wordList
  | (inr (gameId, gameState), games') =>
      (cfg_mode (default defaultConfig config) = absurdle ∨ randomIndex < length wordList)
      ∧ c_mode gameState = cfg_mode (default defaultConfig config)
      ∧ c_maxRounds gameState = cfg_maxRounds (default defaultConfig config)
      ∧ c_wordLength gameState = cfg_wordLength (default defaultConfig config)
      ∧ map player_name (c_players gameState)
        = match cfg_mode (default defaultConfig config),
                cfg_playerNames (default defaultConfig config) with
          | multiplayer, Some playerNames => map player_name_of playerNames
          | _, _ => ["Player"%string]
          end
  end.
Proof.
  unfold createGame. cbv zeta.
  generalize (default defaultConfig config). intros cfg.
  assert (Hnames : ∀ names,
    map player_name
        (imap (fun k name => mkPlayer (uuid (S k)) (player_name_of name) [] false) names)
    = map player_name_of names).
  { intros names. generalize S. induction names as [|name names IH]; intros f; [done|].
    simpl. f_equal. apply (IH (f ∘ S)). }
  destruct (decide (cfg_mode cfg = absurdle)) as [Habs | Hnabs].
  - unfold new_players. rewrite Habs. simpl. split_and!; try done. by left.
  - unfold getRandomWord.
    destruct (wordList !! randomIndex) as [word|] eqn:Hword; simpl.
    + apply lookup_lt_Some in Hword.
      unfold new_players. destruct (cfg_mode cfg) eqn:Hmode; simpl.
      * split_and!; try done. by right.
      * destruct (cfg_playerNames cfg) as [names|]; simpl.
        -- split_and!; try done. by right.
        -- done.
      * done.
    + apply lookup_ge_None in Hword. done.
Qed.

End CreationOutcomes.

Example create_hunt :
  createGame Sample.words ∅ (Some (mkConfig 6 5 absurdle None))
    (fun k => match k with 0 => "g2" | _ => "p3" end)%string 0
  = (inr ("g2"%string, toClientGameState Sample.hunt ""),
     <["g2"%string := Sample.hunt]> ∅).
Proof. vm_compute. reflexivity. Qed.

Lemma reachable_hunt : reachable Sample.words Sample.hunt.
Proof.
  eapply reach_created; [exact create_hunt|]. by rewrite lookup_insert_eq.
Qed.

Lemma reachable_well_formed_witness : well_formed Sample.words Sample.hunt.
Proof. exact (reachable_well_formed Sample.words Sample.hunt reachable_hunt). Defined.

Example submit_hunt_short :
  submitGuess Sample.words Sample.store "g2" "cat" None
  = (inl (WrongLength 5), Sample.store).
Proof. vm_compute. reflexivity. Qed.

Lemma submitGuess_fails_cleanly_witness :
  request_failure (WrongLength 5) ∧ Sample.store = Sample.store.
Proof.
  exact (submitGuess_fails_cleanly Sample.words Sample.store "g2" Sample.hunt "cat" None
           _ _ reachable_hunt ltac:(done) ltac:(done) eq_refl submit_hunt_short).
Defined.

Lemma createGame_starts_fresh_witness :
  "g2"%string = "g2"%string
  ∧ getGame (<["g2"%string := Sample.hunt]> ∅) "g2"
    = Some (toClientGameState Sample.hunt "")
  ∧ getGameAnswer (<["g2"%string := Sample.hunt]> ∅) "g2" = None
  ∧ c_gameStatus (toClientGameState Sample.hunt "") = playing
  ∧ c_currentRow (toClientGameState Sample.hunt "") = 0%Z
  ∧ c_currentPlayerIndex (toClientGameState Sample.hunt "") = 0
  ∧ c_winnerId (toClientGameState Sample.hunt "") = None
  ∧ Forall (fun p => guesses p = [] ∧ isWinner p = false)
           (c_players (toClientGameState Sample.hunt ""))
  ∧ (∀ other, other ≠ "g2"%string →
       <["g2"%string := Sample.hunt]> (∅ : Games) !! other = (∅ : Games) !! other).
Proof.
  exact (createGame_starts_fresh Sample.words ∅ _ _ 0 _ _ _ create_hunt).
Defined.

(** ** The controller *)

Lemma includes_app_r (s t sub : string) :
  Controller.includes t sub = true → Controller.includes (s ++ t)%string sub = true.
Proof.
  intros Ht. induction s as [|a s IH]; [done|].
  simpl. rewrite IH. apply orb_true_r.
Qed.

Section HandlerProperties.

Variable wordList : list string.
Variable show_number : Z → string.
Variable type_error_message : string.

Local Abbreviation message := (Controller.message show_number type_error_message).
Local Abbreviation handle_guess :=
  (Controller.submitGuess wordList show_number type_error_message).

Lemma guess_error_status_cases e :
  Controller.guess_error_status (message e)
  = match e with
    | GameNotFound => 404
    | NotPlaying | WrongLength _ | NotLetters | NotValidWord | NotYourTurn _ => 400
    | InvalidGuessFormat | NoCandidateWords | NoValidPatterns => 500
    | TypeError => Controller.guess_error_status type_error_message
    end.
Proof.
  destruct e as [| | |n| | |name| | |]; try reflexivity.
  unfold Controller.guess_error_status, Controller.message.
  replace (String.eqb ("It's " ++ name ++ "'s turn") "Game not found") with false
    by reflexivity.
  rewrite (includes_app_r "It's " (name ++ "'s turn") "turn").
  - by rewrite !orb_true_r.
  - apply includes_app_r. reflexivity.
Qed.

(** X24.  The status code of a rejected guess.  Whatever the word length
    and the player's name in the message: an unknown game gives 404; a game
    that is not in play, a guess of the wrong length, with other characters
    than letters or outside the dictionary, and a guess out of turn give 400;
    an empty guess format, an absurdle game without candidates and a guess
    without pattern give 500. *)
Theorem guess_error_status_table e :
  e ≠ TypeError →
  Controller.guess_error_status (message e)
  = match e with
    | GameNotFound => 404
    | NotPlaying | WrongLength _ | NotLetters | NotValidWord | NotYourTurn _ => 400
    | _ => 500
    end.
Proof. intros He. rewrite guess_error_status_cases. by destruct e. Qed.


(** X26.  The answer handler.  The answer of a game is sent (200) only for
    a stored game that is no longer in play; an empty id is answered 400, and
    an unknown game or a game in play 404.  A finished game that is not an
    absurdle game always gets its answer. *)
Theorem getGameAnswer_handler games gameId :
  (gameId = ""%string → status (Controller.getGameAnswer games gameId) = 400)
  ∧ (gameId ≠ ""%string →
       match games !! gameId with
       | None => status (Controller.getGameAnswer games gameId) = 404
       | Some game =>
           (gameStatus game = playing →
              status (Controller.getGameAnswer games gameId) = 404)
           ∧ (gameStatus game ≠ playing → mode game ≠ absurdle →
                Controller.getGameAnswer games gameId
                = mkResponse 200 (AnswerBody (answer game)))
       end)
  ∧ (∀ a, body (Controller.getGameAnswer games gameId) = AnswerBody a →
       ∃ game, games !! gameId = Some game ∧ gameStatus game ≠ playing).
Proof.
  unfold Controller.getGameAnswer, getGameAnswer. split_and!.
  - intros ->. done.
  - intros Hne. rewrite decide_False by done.
    destruct (games !! gameId) as [game|]; [|done]. split.
    + intros Hp. by rewrite decide_True.
    + intros Hp Hm. by rewrite decide_False, decide_False.
  - intros a. case_decide; [done|].
    destruct (games !! gameId) as [game|]; [|done].
    destruct (decide (gameStatus game = playing)); [done|]. by exists game.
Qed.

End HandlerProperties.

Lemma guess_error_status_table_witness :
  Controller.guess_error_status
    (Controller.message (fun _ => "5"%string) "" (NotYourTurn "Bob")) = 400.
Proof.
  exact (guess_error_status_table (fun _ => "5"%string) "" (NotYourTurn "Bob")
           ltac:(done)).
Defined.

(** ** The client *)

Lemma updateKeyboardState_concat (guesses : list Guess) :
  Client.updateKeyboardState guesses = foldl Client.update_key ∅ (concat guesses).
Proof.
  unfold Client.updateKeyboardState. generalize (∅ : Client.KeyState).
  induction guesses as [|g gs IH]; intros ks; simpl; [done|].
  by rewrite foldl_app, IH.
Qed.

Lemma update_key_lookup keyState l c :
  Client.update_key keyState l !! c
  = if decide (Js.upper_char (char l) = c) then
      match state l with
      | Hit => Some Hit
      | Present => if decide (keyState !! c = Some Hit) then Some Hit else Some Present
      | Miss => match keyState !! c with None => Some Miss | Some s => Some s end
      | Empty => keyState !! c
      end
    else keyState !! c.
Proof.
  unfold Client.update_key.
  destruct (decide (Js.upper_char (char l) = c)) as [<- | Hne].
  - destruct (state l).
    + by rewrite lookup_insert_eq.
    + destruct (decide (keyState !! Js.upper_char (char l) = Some Hit)) as [Heq|Hneq].
      * by rewrite decide_False by (by intros H'; apply H').
      * by rewrite decide_True, lookup_insert_eq by done.
    + destruct (keyState !! Js.upper_char (char l)) eqn:Hcur; [done|].
      by rewrite lookup_insert_eq.
    + done.
  - destruct (state l); try done.
    + by rewrite lookup_insert_ne.
    + case_decide; [by rewrite lookup_insert_ne | done].
    + destruct (keyState !! Js.upper_char (char l)); [done | by rewrite lookup_insert_ne].
Qed.

Lemma updateKeyboardState_best_flat (ls : list Letter) c :
  match foldl Client.update_key ∅ ls !! c with
  | None => filter (fun l => Js.upper_char (char l) = c ∧ state l ≠ Empty) ls = []
  | Some s =>
      s ∈ map state (filter (fun l => Js.upper_char (char l) = c ∧ state l ≠ Empty) ls)
      ∧ ∀ l, l ∈ filter (fun l => Js.upper_char (char l) = c ∧ state l ≠ Empty) ls →
             priority (state l) ≤ priority s
  end.
Proof.
  induction ls as [|l ls IH] using rev_ind; [done|].
  rewrite foldl_app, filter_app. simpl. rewrite update_key_lookup.
  set (keep := fun l => Js.upper_char (char l) = c ∧ state l ≠ Empty) in *.
  destruct (decide (Js.upper_char (char l) = c)) as [Hc | Hc].
  - destruct (state l) eqn:Hst.
    + rewrite filter_cons, (decide_True (P := keep l)) by (unfold keep; cbv beta; rewrite Hst; done).
      rewrite filter_nil. split.
      * rewrite map_app. apply elem_of_app. right. cbn [map]. rewrite Hst. by left.
      * intros l' _. destruct (state l'); simpl; lia.
    + rewrite filter_cons, (decide_True (P := keep l)) by (unfold keep; cbv beta; rewrite Hst; done).
      rewrite filter_nil.
      destruct (decide (foldl Client.update_key ∅ ls !! c = Some Hit)) as [Hhit | Hhit].
      * rewrite Hhit in IH. destruct IH as [Hin Hmax]. split.
        -- rewrite map_app. apply elem_of_app. by left.
        -- intros l' [Hl' | Hl']%elem_of_app; [by apply Hmax|].
           apply list_elem_of_singleton in Hl' as ->. rewrite Hst. simpl. lia.
      * split.
        -- rewrite map_app. apply elem_of_app. right. cbn [map]. rewrite Hst. by left.
        -- intros l' [Hl' | Hl']%elem_of_app.
           ++ destruct (foldl Client.update_key ∅ ls !! c) as [s|].
              ** destruct IH as [Hin Hmax]. specialize (Hmax l' Hl').
                 destruct s; simpl in *; try lia. done.
              ** rewrite IH in Hl'. by apply elem_of_nil in Hl'.
           ++ apply list_elem_of_singleton in Hl' as ->. rewrite Hst. done.
    + rewrite filter_cons, (decide_True (P := keep l)) by (unfold keep; cbv beta; rewrite Hst; done).
      rewrite filter_nil.
      destruct (foldl Client.update_key ∅ ls !! c) as [s|].
      * destruct IH as [Hin Hmax]. split.
        -- rewrite map_app. apply elem_of_app. by left.
        -- intros l' [Hl' | Hl']%elem_of_app; [by apply Hmax|].
           apply list_elem_of_singleton in Hl' as ->. rewrite Hst.
           apply list_elem_of_fmap in Hin as (l0 & -> & [[_ Hl0] _]%list_elem_of_filter).
           destruct (state l0); simpl; try lia. done.
      * rewrite IH, app_nil_l. split.
        -- cbn [map]. rewrite Hst. by left.
        -- intros l' Hl'. apply list_elem_of_singleton in Hl' as ->. by rewrite Hst.
    + rewrite filter_cons, (decide_False (P := keep l)) by (unfold keep; cbv beta; rewrite Hst; tauto).
      rewrite filter_nil, app_nil_r. apply IH.
  - rewrite filter_cons, (decide_False (P := keep l)) by (unfold keep; tauto).
    rewrite filter_nil, app_nil_r. apply IH.
Qed.

(** X27.  The colour of a key.  After any list of scored guesses a key has
    no colour exactly when none of the letters carries it with a verdict, and
    otherwise it has the best verdict given to that letter anywhere in the
    guesses, with hit above present above miss: the order of the guesses does
    not matter, and a key never loses a better colour. *)
Theorem updateKeyboardState_best (guesses : list Guess) (c : ascii) :
  match Client.updateKeyboardState guesses !! c with
  | None => key_letters guesses c = []
  | Some s =>
      s ∈ map state (key_letters guesses c)
      ∧ ∀ l, l ∈ key_letters guesses c → priority (state l) ≤ priority s
  end.
Proof. rewrite updateKeyboardState_concat. apply updateKeyboardState_best_flat. Qed.

Lemma letters_upper w x : x ∈ letters w → Js.upper_char x = x.
Proof.
  unfold letters. rewrite toUpperCase_split.
  intros (y & -> & _)%list_elem_of_fmap. apply upper_char_idemp.
Qed.

Lemma marked_pos_inv s c (g : Guess) :
  0 < marked s c g → ∃ l, l ∈ g ∧ char l = c ∧ state l = s.
Proof.
  unfold marked. intros Hpos.
  destruct (filter (fun l => char l = c ∧ state l = s) g) as [|l rest] eqn:Hf;
    [simpl in Hpos; lia|].
  assert (Hl : l ∈ filter (fun l => char l = c ∧ state l = s) g)
    by (rewrite Hf; by left).
  apply list_elem_of_filter in Hl as [[? ?] ?]. by exists l.
Qed.

Lemma elem_of_concat {A} (x : A) (ls : list (list A)) :
  x ∈ concat ls ↔ ∃ l, x ∈ l ∧ l ∈ ls.
Proof.
  induction ls as [|l0 ls IH]; simpl.
  - split; [by intros ?%elem_of_nil | by intros (l & _ & ?%elem_of_nil)].
  - rewrite elem_of_app, IH. split.
    + intros [Hx | (l & Hx & Hl)]; [exists l0 | exists l]; split; try done;
        [by left | by right].
    + intros (l & Hx & [-> | Hl]%elem_of_cons); [by left | right; by exists l].
Qed.

(** The letters that colour a key when every guess is scored against the
    same answer. *)
Lemma key_letters_scored answer words c l :
  l ∈ key_letters (map (fun w => scoreGuess w answer) words) c ↔
  ∃ w, w ∈ words ∧ l ∈ scoreGuess w answer ∧ char l = c.
Proof.
  unfold key_letters. rewrite list_elem_of_filter, elem_of_concat. split.
  - intros [[Hc Hs] (g & Hl & (w & -> & Hw)%list_elem_of_fmap)].
    exists w. split_and!; try done. rewrite <- Hc. symmetry.
    apply (letters_upper w). rewrite <- (scoreGuess_chars w answer).
    apply list_elem_of_fmap. by exists l.
  - intros (w & Hw & Hl & Hc). split_and!.
    + rewrite Hc. apply (letters_upper w). rewrite <- (scoreGuess_chars w answer).
      apply list_elem_of_fmap. by exists l.
    + apply list_elem_of_lookup in Hl as [i Hi].
      by destruct (scoreGuess_lookup _ _ _ _ Hi) as (_ & _ & ?).
    + exists (scoreGuess w answer). split; [done|].
      apply list_elem_of_fmap. by exists w.
Qed.

(** X28.  The keyboard tells the truth.  When all guesses are scored against
    one answer, a key coloured miss is a letter the answer does not contain,
    a key coloured hit or present is a letter of the answer, a key has no
    colour exactly when no guess contains its letter, and no key carries the
    placeholder. *)
Theorem keyboard_sound (answer : string) (words : list string) (c : ascii) :
  (Client.updateKeyboardState (map (fun w => scoreGuess w answer) words) !! c = Some Miss →
     c ∉ letters answer)
  ∧ (Client.updateKeyboardState (map (fun w => scoreGuess w answer) words) !! c = Some Hit
     ∨ Client.updateKeyboardState (map (fun w => scoreGuess w answer) words) !! c
       = Some Present →
     c ∈ letters answer)
  ∧ (Client.updateKeyboardState (map (fun w => scoreGuess w answer) words) !! c = None ↔
     ∀ w, w ∈ words → c ∉ letters w)
  ∧ Client.updateKeyboardState (map (fun w => scoreGuess w answer) words) !! c
    ≠ Some Empty.
Proof.
  pose proof (updateKeyboardState_best_flat
                (concat (map (fun w => scoreGuess w answer) words)) c) as Hbest.
  rewrite <- updateKeyboardState_concat in Hbest.
  fold (key_letters (map (fun w => scoreGuess w answer) words) c) in Hbest.
  set (keys := Client.updateKeyboardState (map (fun w => scoreGuess w answer) words)) in *.
  assert (Hsome : ∀ s, keys !! c = Some s →
            s ≠ Empty
            ∧ ∃ w l, w ∈ words ∧ l ∈ scoreGuess w answer ∧ char l = c ∧ state l = s).
  { intros s Hs. rewrite Hs in Hbest. destruct Hbest as [Hin _].
    apply list_elem_of_fmap in Hin as (l & -> & Hl).
    pose proof Hl as (w & Hw & Hlw & Hc)%key_letters_scored.
    apply list_elem_of_filter in Hl as [[_ Hne] _]. split; [done|]. by exists w, l. }
  split_and!.
  - intros Hs. destruct (Hsome _ Hs) as (_ & w & l & Hw & Hl & Hc & Hst).
    rewrite Hs in Hbest. destruct Hbest as [_ Hmax].
    assert (Hnone : ∀ s, s = Hit ∨ s = Present → marked s c (scoreGuess w answer) = 0).
    { intros s Hs'. destruct (marked s c (scoreGuess w answer)) eqn:Hm; [done|].
      destruct (marked_pos_inv s c (scoreGuess w answer)) as (l' & Hl' & Hc' & Hst');
        [lia|].
      assert (Hk : l' ∈ key_letters (map (fun w => scoreGuess w answer) words) c)
        by (apply key_letters_scored; by exists w).
      specialize (Hmax l' Hk). rewrite Hst' in Hmax.
      destruct Hs' as [-> | ->]; simpl in Hmax; lia. }
    destruct (scoreGuess_marks w answer c) as [_ Hall].
    rewrite (Hnone Hit), (Hnone Present) in Hall by auto.
    intros Hin%occurrences_pos.
    pose proof (marked_pos Miss _ l Hl Hst) as Hmiss. rewrite Hc in Hmiss.
    specialize (Hall Hmiss). lia.
  - intros Hs.
    assert (∃ s, (s = Hit ∨ s = Present) ∧ keys !! c = Some s) as (s & Hs' & Hkey)
      by (destruct Hs; [exists Hit | exists Present]; auto).
    destruct (Hsome _ Hkey) as (_ & w & l & Hw & Hl & Hc & Hst).
    pose proof (marked_pos s _ l Hl Hst) as Hpos. rewrite Hc in Hpos.
    destruct (scoreGuess_marks w answer c) as [Hmin _].
    apply occurrences_pos. destruct Hs' as [-> | ->]; lia.
  - split.
    + intros Hnone w Hw Hin. rewrite Hnone in Hbest.
      rewrite <- (scoreGuess_chars w answer) in Hin.
      apply list_elem_of_fmap in Hin as (l & -> & Hl).
      assert (Hk : l ∈ key_letters (map (fun w => scoreGuess w answer) words) (char l))
        by (apply key_letters_scored; by exists w).
      rewrite Hbest in Hk. by apply elem_of_nil in Hk.
    + intros Hall. destruct (keys !! c) as [s|] eqn:Hs; [|done].
      destruct (Hsome _ eq_refl) as (_ & w & l & Hw & Hl & Hc & _).
      exfalso. apply (Hall w Hw). rewrite <- (scoreGuess_chars w answer), <- Hc.
      apply list_elem_of_fmap. by exists l.
  - intros Hs. by destruct (Hsome _ Hs).
Qed.

(** X29.  The app never guesses out of turn.  The player id the app sends
    with a guess, computed from the state the service last returned for the
    game, always passes the turn validation of [submitGuess]. *)
Theorem getCurrentPlayerId_passes_turn_check (game : ServerGameState)
    (currentGuess : string) :
  turn_check game (Client.getCurrentPlayerId (Some (toClientGameState game currentGuess)))
  = None.
Proof.
  unfold turn_check, Client.getCurrentPlayerId. simpl.
  destruct (decide (mode game = multiplayer)) as [-> | ?]; [|done].
  destruct (players game !! currentPlayerIndex game) as [p|]; [|done]. simpl.
  rewrite (decide_False (P := Some (player_id p) ≠ Some (player_id p)))
    by (by intros H'; apply H').
  by destruct (decide (player_id p = ""%string)).
Qed.

Section ViewProperties.

Variable wordList : list string.

(** X30.  The winner the view names.  For a game of the store that is won,
    the multiplayer view names a player whose id is the recorded [winnerId]
    and who carries the winner flag, and it announces a tie exactly when more
    than one player carries the flag; for a lost game no player carries the
    flag, and no winner and no tie are shown. *)
Theorem shown_winner_is_recorded (game : ServerGameState) (currentGuess : string) :
  reachable wordList game →
  (gameStatus game = won →
     ∃ p, p ∈ players game
          ∧ isWinner p = true
          ∧ winnerId game = Some (player_id p)
          ∧ Client.shown_winner (toClientGameState game currentGuess)
            = Some (player_name p)
          ∧ (Client.checkTieCondition (toClientGameState game currentGuess) = true
             ↔ 1 < length (winners game)))
  ∧ (gameStatus game = lost →
       Client.shown_winner (toClientGameState game currentGuess) = None
       ∧ Client.checkTieCondition (toClientGameState game currentGuess) = false
       ∧ Forall (fun p => isWinner p = false) (players game)).
Proof.
  intros [_ _ _ _ _ _ Wwon Wlost _ _ _ _]%reachable_well_formed_helper.
  unfold Client.shown_winner, Client.checkTieCondition. simpl.
  fold (winners game). split.
  - intros Hwon. destruct (Wwon Hwon) as (first & rest & Hw & Hid).
    assert (Hin : first ∈ winners game) by (rewrite Hw; by left).
    apply list_elem_of_filter in Hin as [Hflag Hin].
    exists first. rewrite Hw, Hwon. simpl. split_and!; try done.
    rewrite bool_decide_eq_true. done.
  - intros Hlost. destruct (Wlost Hlost) as [Hw _]. rewrite Hw, Hlost. simpl.
    split_and!; try done.
    apply Forall_forall. intros p Hp. destruct (isWinner p) eqn:Hflag; [|done].
    assert (Hin : p ∈ winners game) by (by apply list_elem_of_filter).
    rewrite Hw in Hin. by apply elem_of_nil in Hin.
Qed.

End ViewProperties.

Example create_classic :
  createGame Sample.words Sample.store (Some (mkConfig 2 5 single None))
    (fun k => match k with 0 => "g5" | _ => "p3" end)%string 1
  = (inr ("g5"%string, toClientGameState Fixtures.classic ""), Fixtures.store).
Proof. vm_compute. reflexivity. Qed.

Lemma reachable_classic_slate : reachable Sample.words Fixtures.classic_slate.
Proof.
  eapply (reach_submitted Sample.words Fixtures.store "g5" Fixtures.classic "slate" None).
  - eapply reach_created; [exact create_classic | reflexivity].
  - reflexivity.
  - exact submit_classic_slate.
  - by rewrite lookup_insert_eq.
Qed.

Lemma shown_winner_is_recorded_witness :
  ∃ p, p ∈ players Fixtures.classic_slate
       ∧ isWinner p = true
       ∧ winnerId Fixtures.classic_slate = Some (player_id p)
       ∧ Client.shown_winner (toClientGameState Fixtures.classic_slate "")
         = Some (player_name p)
       ∧ (Client.checkTieCondition (toClientGameState Fixtures.classic_slate "") = true
          ↔ 1 < length (winners Fixtures.classic_slate)).
Proof.
  apply (proj1 (shown_winner_is_recorded Sample.words Fixtures.classic_slate ""
                  reachable_classic_slate)).
  reflexivity.
Defined.
